(** * ATS resume optimizer: the dual scoring pipeline of [app.py]

    A shallow embedding of the text cleaning, keyword extraction, scoring
    and file-reading functions of [app.py], and the properties of the
    specification proved (or refuted) on them.

    Conventions.
    - A Python [str] is a sequence of Unicode code points: [list N].
    - A Python [set] of strings is a [gset str].
    - The scores are binary64 floats. The module [Binary64] holds the
      pipeline as the interpreter computes it, on IEEE binary64 values
      with every operation rounded to nearest, ties to even. The top level
      holds the same pipeline in exact arithmetic ([Q], equalities with
      [Qeq]); it is used for the properties of order and of the extreme
      values, which rounding to nearest keeps. The keyword sets are the
      same in both.
    - A set object in memory lists its elements in an order that the hash
      seed of the process decides: the module [Memory] holds the pipeline
      on such objects.
    - The tagger, the embedding model, the cosine routine, [str.lower] and
      the two document parsers are libraries outside the repository: they
      are the fields of the records [Runtime] and [Parsers]. *)

From Stdlib Require Import QArith Qround Qabs Lqa.
From Stdlib Require Import Strings.String Strings.Ascii.
From Stdlib Require Import Floats.SpecFloat.
From stdpp Require Import base decidable countable gmap sets list sorting.

Local Open Scope Z_scope.

(** ** Strings *)

Module Text.

Definition char := N.
Definition str := list N.

(** An ASCII literal of the source as a sequence of code points. *)
Definition lit (s : string) : str :=
  List.map N_of_ascii (list_ascii_of_string s).

Definition SPACE : char := 32%N.
Definition NEWLINE : char := 10%N.

(** The character class of the first pattern of [clean_text]:
    U+2022, '*', '-', '|', U+27A2, U+25AA. *)
Definition bullets : list char :=
  [0x2022; 0x2A; 0x2D; 0x7C; 0x27A2; 0x25AA]%N.

Definition is_bullet (c : char) : bool :=
  existsb (N.eqb c) bullets.

(** [\s] on a [str] pattern and [str.strip()] use the same test, the
    interpreter's Unicode white space table. *)
Definition is_space (c : char) : bool :=
  ((0x09 <=? c) && (c <=? 0x0D) || (0x1C <=? c) && (c <=? 0x20)
   || (c =? 0x85) || (c =? 0xA0) || (c =? 0x1680)
   || (0x2000 <=? c) && (c <=? 0x200A)
   || (c =? 0x2028) || (c =? 0x2029) || (c =? 0x202F)
   || (c =? 0x205F) || (c =? 0x3000))%N.

(** [re.sub(r'[...]', '', text)]: every character of the class is
    deleted. *)
Definition sub_class_empty (cls : char -> bool) (text : str) : str :=
  List.filter (fun c => negb (cls c)) text.

(** [re.sub(r'\s+', ' ', text)]: every maximal run of the class is
    replaced by [rep].  [in_run] tells that the previous character
    belonged to a run whose replacement is already written. *)
Fixpoint sub_runs (cls : char -> bool) (rep : char) (in_run : bool)
    (text : str) : str :=
  match text with
  | [] => []
  | c :: rest =>
      if cls c then
        if in_run then sub_runs cls rep true rest
        else rep :: sub_runs cls rep true rest
      else c :: sub_runs cls rep false rest
  end.

Definition sub_class_plus (cls : char -> bool) (rep : char) (text : str) : str :=
  sub_runs cls rep false text.

Fixpoint lstrip (text : str) : str :=
  match text with
  | [] => []
  | c :: rest => if is_space c then lstrip rest else text
  end.

Fixpoint rstrip (text : str) : str :=
  match text with
  | [] => []
  | c :: rest =>
      match rstrip rest with
      | [] => if is_space c then [] else [c]
      | kept => c :: kept
      end
  end.

(** [str.strip()] *)
Definition strip (text : str) : str := rstrip (lstrip text).

(** [str.join] *)
Fixpoint join (sep : str) (parts : list str) : str :=
  match parts with
  | [] => []
  | [p] => p
  | p :: ps => p ++ sep ++ join sep ps
  end.

(** [needle in hay] on strings *)
Fixpoint is_prefix (needle hay : str) : bool :=
  match needle, hay with
  | [], _ => true
  | _ :: _, [] => false
  | a :: n', b :: h' => (a =? b)%N && is_prefix n' h'
  end.

Fixpoint contains (needle hay : str) : bool :=
  is_prefix needle hay ||
  match hay with
  | [] => false
  | _ :: h' => contains needle h'
  end.

Definition str_eqb (a b : str) : bool := bool_decide (a = b).

(** Truth value of a string: empty is false. *)
Definition truthy (s : str) : bool :=
  match s with [] => false | _ => true end.

End Text.
Import Text.

Arguments is_space : simpl never.
Arguments is_bullet : simpl never.

(** ** Exceptions *)

(** An instance of class [Exception], by its name. Exits and interrupts,
    which are not instances of that class, are not outcomes of the calls
    modelled here. *)
Definition Exception := string.

Inductive outcome (A : Type) : Type :=
  | Return (a : A)
  | Raise (e : Exception).
Arguments Return {A} a.
Arguments Raise {A} e.

Definition bind {A B : Type} (m : outcome A) (k : A -> outcome B) : outcome B :=
  match m with
  | Return a => k a
  | Raise e => Raise e
  end.

Notation "x <- m ;; k" := (bind m (fun x => k))
  (at level 100, m at next level, right associativity).

(** [try: body except Exception: handler] *)
Definition try_except {A : Type} (body : outcome A)
    (handler : Exception -> outcome A) : outcome A :=
  match body with
  | Return a => Return a
  | Raise e => handler e
  end.

(** [m] returns, and its value satisfies [P]. *)
Definition returns {A : Type} (m : outcome A) (P : A -> Prop) : Prop :=
  match m with
  | Return a => P a
  | Raise _ => False
  end.

(** [a / b] on two integers: a zero divisor raises. *)
Definition true_div (a b : Z) : outcome Q :=
  if b =? 0 then Raise "ZeroDivisionError"%string
  else Return (inject_Z a / inject_Z b)%Q.

(** ** 3. Smart cleaning and processing *)

Definition clean_text (text : str) : str :=
  let text := sub_class_empty is_bullet text in
  let text := strip (sub_class_plus is_space SPACE text) in
  text.

(** A token of the tagger's output, with the three attributes the
    extractor reads. *)
Inductive pos : Type :=
  | ADJ | ADP | ADV | AUX | CCONJ | DET | INTJ | NOUN | NUM | PART
  | PRON | PROPN | PUNCT | SCONJ | SYM | VERB | X | SPACE_.

#[global] Instance pos_eq_dec : EqDecision pos.
Proof. solve_decision. Defined.

Record Token : Type := mkToken {
  token_text : str;
  pos_ : pos;
  is_stop : bool
}.

(** A tensor of the embedding model. *)
Definition Tensor := list Q.

(** The library routines the pipeline calls: [str.lower], the tagger
    [nlp], [semantic_model.encode] and [util.cos_sim(..).item()]; they
    are taken to return. *)
Record Runtime : Type := mkRuntime {
  str_lower : str -> str;
  nlp : str -> list Token;
  encode : str -> Tensor;
  cos_sim : Tensor -> Tensor -> Q
}.

Definition ignored : gset str :=
  list_to_set (List.map lit
    ["team"; "work"; "skills"; "experience"; "role"; "time"; "services";
     "solutions"; "environment"]%string).

(** One iteration of the loop of [extract_keywords]. *)
Definition extract_step (keywords : gset str) (token : Token) : gset str :=
  if (bool_decide (pos_ token ∈ [NOUN; PROPN]) && negb (is_stop token)
      && (2 <? Z.of_nat (length (token_text token))))%bool
  then
    if bool_decide (token_text token ∉ ignored)
    then keywords ∪ {[ token_text token ]}
    else keywords
  else keywords.

Definition extract_keywords (rt : Runtime) (text : str) : gset str :=
  let doc := nlp rt (str_lower rt text) in
  fold_left extract_step doc ∅.

(** ** 4. Dual scoring algorithm, in exact arithmetic *)

(** Rounding of an exact value to the nearest integer, ties to even. *)
Definition round_half_even (x : Q) : Z :=
  let f := Qfloor x in
  match Qcompare (x - inject_Z f) (1 # 2) with
  | Lt => f
  | Gt => f + 1
  | Eq => if Z.even f then f else f + 1
  end.

(** [round(x, ndigits)] on an exact value *)
Definition round (x : Q) (ndigits : nat) : Q :=
  let scale := inject_Z (10 ^ Z.of_nat ndigits) in
  (inject_Z (round_half_even (x * scale)) / scale)%Q.

Record ScoreReport : Type := mkReport {
  final : Q;
  keyword : Q;
  semantic : Q;
  missing : gset str;
  matched : gset str
}.

Definition len (s : gset str) : Z := Z.of_nat (size s).

(** Part B of [calculate_scores], the exact-match score of two keyword
    sets. *)
Definition exact_match_score (res_keys jd_keys : gset str) : outcome Q :=
  let match_count := len (res_keys ∩ jd_keys) in
  let total_jd_keys := len jd_keys in
  if total_jd_keys =? 0 then Return 0%Q
  else
    ratio <- true_div match_count total_jd_keys ;;
    Return (ratio * 100)%Q.

(** Part D of [calculate_scores], the weighted sum. *)
Definition weighted_score (keyword_score semantic_score : Q) : Q :=
  ((keyword_score * (6 # 10)) + (semantic_score * (4 # 10)))%Q.

(** The values bound in the body of [calculate_scores], before the
    report rounds them. *)
Record Locals : Type := mkLocals {
  clean_resume : str;
  clean_jd : str;
  res_keys : gset str;
  jd_keys : gset str;
  keyword_score : Q;
  similarity : Q;
  semantic_score : Q;
  final_score : Q
}.

(** Parts A to D. *)
Definition calculate_locals (rt : Runtime) (resume_text jd_text : str) : outcome Locals :=
  let clean_resume := clean_text resume_text in
  let clean_jd := clean_text jd_text in
  let res_keys := extract_keywords rt clean_resume in
  let jd_keys := extract_keywords rt clean_jd in
  keyword_score <- exact_match_score res_keys jd_keys ;;
  let embedding_1 := encode rt clean_resume in
  let embedding_2 := encode rt clean_jd in
  let similarity := cos_sim rt embedding_1 embedding_2 in
  let semantic_score := (similarity * 100)%Q in
  let final_score := weighted_score keyword_score semantic_score in
  Return (mkLocals clean_resume clean_jd res_keys jd_keys
                   keyword_score similarity semantic_score final_score).

(** The returned dictionary. *)
Definition report_of (l : Locals) : ScoreReport :=
  {| final := round (final_score l) 1;
     keyword := round (keyword_score l) 1;
     semantic := round (semantic_score l) 1;
     missing := jd_keys l ∖ res_keys l;
     matched := res_keys l ∩ jd_keys l |}.

Definition calculate_scores (rt : Runtime) (resume_text jd_text : str) : outcome ScoreReport :=
  l <- calculate_locals rt resume_text jd_text ;;
  Return (report_of l).

(** ** 4. Dual scoring algorithm, on binary64 floats *)

Module Binary64.

Definition prec : Z := 53.
Definition emax : Z := 1024.

(** An integer as a float, and the three operations, each rounded to
    nearest, ties to even. *)
Definition of_Z (n : Z) : spec_float := binary_normalize prec emax n 0 false.
Definition mul : spec_float -> spec_float -> spec_float := SFmul prec emax.
Definition add : spec_float -> spec_float -> spec_float := SFadd prec emax.
Definition div : spec_float -> spec_float -> spec_float := SFdiv prec emax.

(** [a <= b] on floats *)
Definition leb (a b : spec_float) : bool := SFleb a b.

(** The value of a finite float. *)
Definition to_Q (x : spec_float) : Q :=
  match x with
  | S754_finite s m e =>
      let v := if s then Z.neg m else Z.pos m in
      if 0 <=? e then inject_Z (v * 2 ^ e)
      else (inject_Z v / inject_Z (2 ^ (- e)))%Q
  | _ => 0%Q
  end.

(** The float nearest to a rational, ties to even: the value of a decimal
    literal, of the quotient of two integers, and of a decimal that
    [round] has chosen. *)
Definition of_Q (q : Q) : spec_float :=
  match Qnum q with
  | Z0 => S754_zero false
  | Zpos p => div (S754_finite false p 0) (S754_finite false (Qden q) 0)
  | Zneg p => div (S754_finite true p 0) (S754_finite false (Qden q) 0)
  end.

(** [round(x, 1)] on a float: the multiple of 0.1 nearest to the value of
    [x], ties to the even multiple, then the float nearest to it; a zero
    keeps the sign of [x]. Infinities and NaN are returned as they are. *)
Definition round1 (x : spec_float) : spec_float :=
  match x with
  | S754_finite s _ _ =>
      match round_half_even (to_Q x * 10) with
      | Z0 => S754_zero s
      | n => of_Q (n # 10)
      end
  | _ => x
  end.

(** The literals [0.6] and [0.4]. *)
Definition c_0_6 : spec_float := of_Q (6 # 10).
Definition c_0_4 : spec_float := of_Q (4 # 10).

(** [a / b] on two integers: a zero divisor raises, otherwise the float
    nearest to the quotient. *)
Definition true_div (a b : Z) : outcome spec_float :=
  if b =? 0 then Raise "ZeroDivisionError"%string
  else Return (of_Q (inject_Z a / inject_Z b)).

(** Part B of [calculate_scores]. *)
Definition exact_match_score (res_keys jd_keys : gset str) : outcome spec_float :=
  let match_count := len (res_keys ∩ jd_keys) in
  let total_jd_keys := len jd_keys in
  if total_jd_keys =? 0 then Return (of_Z 0)
  else
    ratio <- true_div match_count total_jd_keys ;;
    Return (mul ratio (of_Z 100)).

(** Part C, from the value that [similarity.item()] returns. *)
Definition semantic_score (similarity : spec_float) : spec_float :=
  mul similarity (of_Z 100).

(** Part D. *)
Definition weighted_score (keyword_score semantic_score : spec_float) : spec_float :=
  add (mul keyword_score c_0_6) (mul semantic_score c_0_4).

Record Report : Type := mkReport {
  final : spec_float;
  keyword : spec_float;
  semantic : spec_float;
  missing : gset str;
  matched : gset str
}.

(** [calculate_scores]. The cosine routine of the [Runtime] gives the value
    of the similarity; [similarity.item()] is that value as a float. *)
Definition calculate_scores (rt : Runtime) (resume_text jd_text : str) : outcome Report :=
  let clean_resume := clean_text resume_text in
  let clean_jd := clean_text jd_text in
  let res_keys := extract_keywords rt clean_resume in
  let jd_keys := extract_keywords rt clean_jd in
  keyword_score <- exact_match_score res_keys jd_keys ;;
  let embedding_1 := encode rt clean_resume in
  let embedding_2 := encode rt clean_jd in
  let similarity := of_Q (cos_sim rt embedding_1 embedding_2) in
  let semantic_score := semantic_score similarity in
  let final_score := weighted_score keyword_score semantic_score in
  Return {| final := round1 final_score;
            keyword := round1 keyword_score;
            semantic := round1 semantic_score;
            missing := jd_keys ∖ res_keys;
            matched := res_keys ∩ jd_keys |}.

End Binary64.

(** ** 4. Dual scoring algorithm, on set objects in memory *)

Module Memory.

(** The iteration order of the set objects of one process: a set that
    receives the elements [l] lists them as [arrange l]. *)
Record HashOrder : Type := mkOrder {
  arrange : list str -> list str;
  arrange_perm : ∀ l, arrange l ≡ₚ l
}.

(** [s.add(k)] *)
Definition set_add (o : HashOrder) (s : list str) (k : str) : list str :=
  if bool_decide (k ∈ s) then s else arrange o (s ++ [k]).

(** [a.intersection(b)] and [a - b] *)
Definition intersection (o : HashOrder) (a b : list str) : list str :=
  arrange o (List.filter (fun k => bool_decide (k ∈ b)) a).

Definition difference (o : HashOrder) (a b : list str) : list str :=
  arrange o (List.filter (fun k => negb (bool_decide (k ∈ b))) a).

Definition extract_step (o : HashOrder) (keywords : list str) (token : Token) : list str :=
  if (bool_decide (pos_ token ∈ [NOUN; PROPN]) && negb (is_stop token)
      && (2 <? Z.of_nat (length (token_text token))))%bool
  then
    if bool_decide (token_text token ∉ ignored)
    then set_add o keywords (token_text token)
    else keywords
  else keywords.

Definition extract_keywords (o : HashOrder) (rt : Runtime) (text : str) : list str :=
  let doc := nlp rt (str_lower rt text) in
  fold_left (extract_step o) doc [].

Record Report : Type := mkReport {
  final : spec_float;
  keyword : spec_float;
  semantic : spec_float;
  missing : list str;
  matched : list str
}.

Definition calculate_scores (o : HashOrder) (rt : Runtime) (resume_text jd_text : str) :
    outcome Report :=
  let clean_resume := clean_text resume_text in
  let clean_jd := clean_text jd_text in
  let res_keys := extract_keywords o rt clean_resume in
  let jd_keys := extract_keywords o rt clean_jd in
  let match_count := Z.of_nat (length (intersection o res_keys jd_keys)) in
  let total_jd_keys := Z.of_nat (length jd_keys) in
  keyword_score <-
    (if total_jd_keys =? 0 then Return (Binary64.of_Z 0)
     else
       ratio <- Binary64.true_div match_count total_jd_keys ;;
       Return (Binary64.mul ratio (Binary64.of_Z 100))) ;;
  let embedding_1 := encode rt clean_resume in
  let embedding_2 := encode rt clean_jd in
  let similarity := Binary64.of_Q (cos_sim rt embedding_1 embedding_2) in
  let semantic_score := Binary64.semantic_score similarity in
  let final_score := Binary64.weighted_score keyword_score semantic_score in
  Return {| final := Binary64.round1 final_score;
            keyword := Binary64.round1 keyword_score;
            semantic := Binary64.round1 semantic_score;
            missing := difference o jd_keys res_keys;
            matched := intersection o res_keys jd_keys |}.

(** The same value, as [==] on two reports tells: the same three floats
    and the same elements in the two sets. *)
Definition same_report (a b : Report) : Prop :=
  final a = final b ∧ keyword a = keyword b ∧ semantic a = semantic b
  ∧ (∀ k, k ∈ matched a ↔ k ∈ matched b)
  ∧ (∀ k, k ∈ missing a ↔ k ∈ missing b).

End Memory.

(** ** 2. Text extraction *)

Record UploadedFile : Type := mkFile {
  type : str;
  content : list N
}.

(** The two parsers. [PdfReader] gives [reader.pages], each page with the
    outcome of its [extract_text()] ([None] is a page without text);
    [Document] gives [doc.paragraphs], each with the outcome of its
    [text]. *)
Record Parsers : Type := mkParsers {
  PdfReader : UploadedFile -> outcome (list (outcome (option str)));
  Document : UploadedFile -> outcome (list (outcome str))
}.

(** [x or ""] *)
Definition or_empty (x : option str) : str :=
  match x with
  | Some s => if truthy s then s else []
  | None => []
  end.

Fixpoint pages_loop (pages : list (outcome (option str))) (text : str) : outcome str :=
  match pages with
  | [] => Return text
  | page :: rest =>
      extracted <- page ;;
      pages_loop rest (text ++ or_empty extracted)
  end.

Fixpoint para_texts (paragraphs : list (outcome str)) : outcome (list str) :=
  match paragraphs with
  | [] => Return []
  | para :: rest =>
      t <- para ;;
      ts <- para_texts rest ;;
      Return (t :: ts)
  end.

(** The result is [Some text] for a returned string and [None] for
    Python's [None], which is also what falling off the end returns. *)
Definition read_file (ps : Parsers) (uploaded_file : UploadedFile) : outcome (option str) :=
  try_except
    (if str_eqb (type uploaded_file) (lit "application/pdf") then
       pages <- PdfReader ps uploaded_file ;;
       text <- pages_loop pages [] ;;
       Return (Some text)
     else if contains (lit "wordprocessingml") (type uploaded_file) then
       paragraphs <- Document ps uploaded_file ;;
       texts <- para_texts paragraphs ;;
       Return (Some (join [NEWLINE] texts))
     else Return None)
    (fun _ => Return None).

(** ** 5. Main GUI: the display of the results *)

(** The order of [sorted] on strings: code point by code point, a prefix
    first. *)
Fixpoint str_leb (a b : str) : bool :=
  match a, b with
  | [], _ => true
  | _ :: _, [] => false
  | x :: a', y :: b' =>
      if (x <? y)%N then true
      else if (x =? y)%N then str_leb a' b'
      else false
  end.

Definition str_le (a b : str) : Prop := str_leb a b = true.

#[global] Instance str_le_dec : RelDecision str_le.
Proof. intros a b. unfold str_le. apply _. Defined.

(** [sorted(l)] *)
Definition sorted (l : list str) : list str := merge_sort str_le l.

(** The tag of one missing keyword. *)
Definition span (word : str) : str :=
  lit "<span style='background-color:#ffeeba; padding:5px; border-radius:5px; margin:2px; display:inline-block; color:black;'>"
  ++ word ++ lit "</span>".

(** What the page shows, with the values that depend on the results; the
    fixed texts of the captions, the subheader and the two [st.write]
    calls are left out. *)
Inductive widget : Type :=
  | Divider
  | Header (final_percent : spec_float)
  | Progress (value : spec_float)
  | Info (keyword_percent : spec_float)
  | Success (semantic_percent : spec_float)
  | Warning (missing_count : Z)
  | Caption
  | Subheader
  | Write_hint
  | Markdown (html : str)
  | Write_no_missing.

(** [sorted(list(results['missing']))] *)
Definition missing_list (results : Binary64.Report) : list str :=
  sorted (elements (Binary64.missing results)).

(** [st.progress] takes a float from 0.0 to 1.0 and raises
    StreamlitAPIException for any other float, NaN included. (Versions of
    Streamlit that also take a float within 1e-9 of an end differ from
    this test on such floats only.) *)
Definition progress_accepts (value : spec_float) : bool :=
  Binary64.leb (Binary64.of_Z 0) value && Binary64.leb value (Binary64.of_Z 1).

(** The lines under [# DISPLAY RESULTS]: the widgets that are shown, in
    order, and the exception that ends the display, if any. *)
Definition display (results : Binary64.Report) : list widget * option Exception :=
  let value := Binary64.div (Binary64.final results) (Binary64.of_Z 100) in
  if progress_accepts value then
    ([Divider;
      Header (Binary64.final results);
      Progress value;
      Info (Binary64.keyword results); Caption;
      Success (Binary64.semantic results); Caption;
      Warning (len (Binary64.missing results)); Caption;
      Subheader; Write_hint]
     ++ (let missing_list := missing_list results in
         match missing_list with
         | _ :: _ => [Markdown (join [SPACE] (List.map span missing_list))]
         | [] => [Write_no_missing]
         end),
     None)
  else
    ([Divider; Header (Binary64.final results)],
     Some "StreamlitAPIException"%string).

(** ** 5. Main GUI: the handler of the "Analyze Match" button *)

Inductive effect : Type :=
  | Invoke_calculate_scores (resume_text jd_input : str)
  | Widget (w : widget)
  | St_error (message : string)
  | Uncaught (e : Exception).

(** Truth value of the result of [read_file]. *)
Definition truthy_opt (x : option str) : bool :=
  match x with
  | Some s => truthy s
  | None => false
  end.

(** The effects of the display of [results]. *)
Definition display_effects (results : Binary64.Report) : list effect :=
  List.map Widget (fst (display results))
  ++ match snd (display results) with
     | Some e => [Uncaught e]
     | None => []
     end.

Definition on_analyze (rt : Runtime) (ps : Parsers) (jd_input : str)
    (uploaded_file : option UploadedFile) : list effect :=
  match truthy jd_input, uploaded_file with
  | true, Some file =>
      match read_file ps file with
      | Raise e => [Uncaught e]
      | Return resume_text =>
          if truthy_opt resume_text then
            let text := default [] resume_text in
            Invoke_calculate_scores text jd_input ::
            match Binary64.calculate_scores rt text jd_input with
            | Raise e => [Uncaught e]
            | Return results => display_effects results
            end
          else []
      end
  | _, _ => [St_error "Please provide both a Job Description and a Resume file."]
  end.

(** ** Stand-ins for the libraries, to run the pipeline on examples *)

Module Fixture.

Definition ascii_lower (c : char) : char :=
  if ((65 <=? c) && (c <=? 90))%N then (c + 32)%N else c.

Definition lower (s : str) : str := List.map ascii_lower s.

Fixpoint words_from (current : str) (s : str) : list str :=
  match s with
  | [] => if truthy current then [List.rev current] else []
  | c :: r =>
      if (c =? SPACE)%N
      then (if truthy current then [List.rev current] else []) ++ words_from [] r
      else words_from (c :: current) r
  end.

Definition stop_words : list str :=
  List.map lit ["a"; "an"; "the"; "for"; "with"; "in"; "and"; "of"]%string.

(** A tagger that splits at spaces, flags the stop words and calls every
    other word a noun. *)
Definition tag (w : str) : Token :=
  if bool_decide (w ∈ stop_words) then mkToken w ADP true else mkToken w NOUN false.

Definition tagger (text : str) : list Token := List.map tag (words_from [] text).

(** An embedding model given by a table of texts. *)
Fixpoint embed (table : list (str * Tensor)) (text : str) : Tensor :=
  match table with
  | [] => [1; 0; 0; 0]%Q
  | (t, v) :: rest => if str_eqb t text then v else embed rest text
  end.

Fixpoint dot (a b : Tensor) : Q :=
  match a, b with
  | x :: a', y :: b' => (x * y + dot a' b')%Q
  | _, _ => 0%Q
  end.

(** Square root of a rational whose numerator and denominator are
    squares. *)
Definition sqrt_exact (q : Q) : Q :=
  Qmake (Z.sqrt (Qnum q)) (Z.to_pos (Z.sqrt (Zpos (Qden q)))).

Definition cosine (a b : Tensor) : Q :=
  (dot a b / sqrt_exact (Qred (dot a a * dot b b)))%Q.

Definition runtime (table : list (str * Tensor)) : Runtime :=
  {| str_lower := lower; nlp := tagger; encode := embed table; cos_sim := cosine |}.

(** Four of the five keywords of the job description are in the resume,
    and the embeddings have cosine 1/2. *)
Definition resume_a : str := lit "Python developer for cloud infrastructure".
Definition jd_a : str := lit "python developer with cloud infrastructure and kubernetes".
Definition table_a : list (str * Tensor) :=
  [(resume_a, [1; 0; 0; 0]%Q); (jd_a, [1; 1; 1; 1]%Q)].

(** No common keyword, and embeddings with cosine -1/20. *)
Definition resume_b : str := lit "python developer".
Definition jd_b : str := lit "pastry chef".
Definition table_b : list (str * Tensor) :=
  [(resume_b, [1; 0; 0; 0; 0]%Q); (jd_b, [-1; 19; 6; 1; 1]%Q)].

(** Two of the seven keywords of the job description are in the resume,
    and the embeddings have cosine 0. *)
Definition resume_c : str := lit "python java".
Definition jd_c : str := lit "python kubernetes docker linux java scala rust".
Definition table_c : list (str * Tensor) :=
  [(resume_c, [1; 0; 0; 0]%Q); (jd_c, [0; 1; 0; 0]%Q)].

(** The cleaned text of the document [plain_docx] below, with the
    embeddings of [table_b]. *)
Definition table_docx : list (str * Tensor) :=
  [(lit "Python developer cloud", [1; 0; 0; 0; 0]%Q); (jd_b, [-1; 19; 6; 1; 1]%Q)].

(** Uploads: the parsers below fail to open a file without content, fail
    in the middle of a file whose content starts with 0, find two pages
    without text in any other PDF and two paragraphs in any other
    document. *)
Definition pdf_type : str := lit "application/pdf".
Definition docx_type : str :=
  lit "application/vnd.openxmlformats-officedocument.wordprocessingml.document".

Definition blank_pdf : UploadedFile := mkFile pdf_type [1; 2; 3]%N.
Definition broken_pdf : UploadedFile := mkFile pdf_type []%N.
Definition torn_pdf : UploadedFile := mkFile pdf_type [0; 1]%N.
Definition plain_docx : UploadedFile := mkFile docx_type [7]%N.
Definition broken_docx : UploadedFile := mkFile docx_type []%N.
Definition torn_docx : UploadedFile := mkFile docx_type [0; 1]%N.
Definition text_file : UploadedFile := mkFile (lit "text/plain") [104; 105]%N.

Definition parsers : Parsers :=
  {| PdfReader := fun f =>
       match content f with
       | [] => Raise "PdfReadError"%string
       | 0%N :: _ => Return [Return (Some (lit "Python")); Raise "KeyError"%string]
       | _ => Return [Return None; Return (Some [])]
       end;
     Document := fun f =>
       match content f with
       | [] => Raise "PackageNotFoundError"%string
       | 0%N :: _ => Return [Return (lit "Python"); Raise "ValueError"%string]
       | _ => Return [Return (lit "Python developer"); Return (lit "cloud")]
       end |}.

End Fixture.

(** Twenty job keywords, eleven of them in the resume; and two iteration
    orders. *)
Module Sample.

Definition key (n : nat) : str :=
  [107%N; N.of_nat (48 + n / 10); N.of_nat (48 + n mod 10)].

Definition jd_20 : gset str := list_to_set (List.map key (List.seq 0 20)).
Definition resume_11 : gset str := list_to_set (List.map key (List.seq 0 11)).

Definition jd_80 : gset str := list_to_set (List.map key (List.seq 0 80)).
Definition resume_23 : gset str := list_to_set (List.map key (List.seq 0 23)).

Definition as_arranged : Memory.HashOrder :=
  Memory.mkOrder (fun l => l) (fun l => reflexivity l).

Definition reversed : Memory.HashOrder :=
  Memory.mkOrder (@List.rev str) (fun l => Permutation_sym (Permutation_rev l)).

End Sample.

(** ** The rules of the specification *)

(** The inclusion rule of the keyword extractor, in the specification's
    words: noun or proper noun, not a stop word, longer than two
    characters, not on the ignore list. *)
Definition inclusion_rule (token : Token) : Prop :=
  (pos_ token = NOUN ∨ pos_ token = PROPN)
  ∧ is_stop token = false
  ∧ (2 < length (token_text token))%nat
  ∧ token_text token ∉ ignored.

(** The exact-match score in the specification's words. *)
Definition spec_keyword_score (resume_keywords jd_keywords : gset str) : Q :=
  if bool_decide (size jd_keywords = 0%nat) then 0%Q
  else (100 * inject_Z (Z.of_nat (size (resume_keywords ∩ jd_keywords)))
        / inject_Z (Z.of_nat (size jd_keywords)))%Q.

(** The float that Part B computes from the two counts, and its distance
    to the exact value, for the table of the counts up to [n] job
    keywords. *)
Definition score_of_counts (match_count total_jd_keys : Z) : spec_float :=
  Binary64.mul (Binary64.of_Q (inject_Z match_count / inject_Z total_jd_keys))
               (Binary64.of_Z 100).

Definition score_error (match_count total_jd_keys : Z) : Q :=
  Qabs (Binary64.to_Q (score_of_counts match_count total_jd_keys)
        - 100 * inject_Z match_count / inject_Z total_jd_keys).

Definition counts_upto (n : nat) : list (nat * nat) :=
  List.flat_map (fun t => List.map (fun m => (m, t)) (List.seq 0 (S t))) (List.seq 1 n).

Definition score_error_within (bound : Q) (counts : nat * nat) : bool :=
  Qle_bool (score_error (Z.of_nat (fst counts)) (Z.of_nat (snd counts))) bound.

(** A page or paragraph whose reading raised. *)
Definition raises {A : Type} (x : outcome A) : Prop :=
  match x with
  | Raise _ => True
  | Return _ => False
  end.

(** The effects that start the pipeline or show its report. *)
Definition runs_pipeline (e : effect) : bool :=
  match e with
  | Invoke_calculate_scores _ _ | Widget _ => true
  | St_error _ | Uncaught _ => false
  end.

(** ** Shapes of cleaned text *)

(** White space occurs only as single [SPACE]s; [after_space] tells that
    the character before the text is a space. *)
Fixpoint single_spaced (after_space : bool) (s : str) : bool :=
  match s with
  | [] => true
  | c :: r =>
      if is_space c then (c =? SPACE)%N && negb after_space && single_spaced true r
      else single_spaced false r
  end.

Definition no_bullets (s : str) : Prop := Forall (fun c => is_bullet c = false) s.

Definition clean_head (s : str) : Prop :=
  match s with
  | [] => True
  | c :: _ => is_space c = false
  end.

(** A character that is neither deleted nor white space. *)
Definition word_char (c : char) : bool := negb (is_bullet c) && negb (is_space c).

(** A text that holds no bullet, no white space other than [SPACE], no
    two [SPACE]s in a row and no [SPACE] at either end. *)
Definition tidy (t : str) : Prop :=
  (∀ c, In c t -> is_bullet c = false ∧ (is_space c = true -> c = SPACE))
  ∧ (∀ a b, t ≠ a ++ SPACE :: SPACE :: b)
  ∧ (∀ r, t ≠ SPACE :: r)
  ∧ (∀ r, t ≠ r ++ [SPACE]).

(** [a] comes strictly before [b]. *)
Definition str_lt (a b : str) : Prop := str_le a b ∧ a ≠ b.

(** * Properties *)

(** ** Text cleaning *)

Section CleanText.

Lemma is_space_SPACE : is_space SPACE = true.
Proof. reflexivity. Qed.

Lemma is_bullet_SPACE : is_bullet SPACE = false.
Proof. reflexivity. Qed.

Lemma sub_runs_single_spaced b t :
  single_spaced b (sub_runs is_space SPACE b t) = true.
Proof.
  revert b. induction t as [|c t IH]; intros b; simpl; [reflexivity|].
  destruct (is_space c) eqn:Hc.
  - destruct b; [apply IH|].
    cbn [single_spaced]. rewrite is_space_SPACE, N.eqb_refl. simpl. apply IH.
  - simpl. rewrite Hc. apply IH.
Qed.

Lemma single_spaced_fixed b s :
  single_spaced b s = true -> sub_runs is_space SPACE b s = s.
Proof.
  revert b. induction s as [|c s IH]; intros b H; simpl in *; [reflexivity|].
  destruct (is_space c) eqn:Hc.
  - apply andb_prop in H as [H Hs]. apply andb_prop in H as [Heq Hb].
    apply N.eqb_eq in Heq. destruct b; [discriminate|].
    rewrite (IH true Hs), Heq. reflexivity.
  - rewrite (IH false H). reflexivity.
Qed.

Lemma lstrip_single_spaced b s :
  single_spaced b s = true -> single_spaced false (lstrip s) = true.
Proof.
  revert b. induction s as [|c s IH]; intros b H; simpl in *; [reflexivity|].
  destruct (is_space c) eqn:Hc.
  - apply andb_prop in H as [_ Hs]. apply (IH true Hs).
  - simpl. rewrite Hc. exact H.
Qed.

Lemma rstrip_single_spaced b s :
  single_spaced b s = true -> single_spaced b (rstrip s) = true.
Proof.
  revert b. induction s as [|c s IH]; intros b H; simpl in *; [reflexivity|].
  destruct (is_space c) eqn:Hc.
  - apply andb_prop in H as [H Hs]. specialize (IH true Hs).
    destruct (rstrip s) as [|k ks]; [reflexivity|].
    change (single_spaced b (c :: k :: ks) = true).
    cbn [single_spaced]. rewrite Hc, H. exact IH.
  - specialize (IH false H).
    destruct (rstrip s) as [|k ks].
    + simpl. rewrite Hc. reflexivity.
    + change (single_spaced b (c :: k :: ks) = true).
      cbn [single_spaced]. rewrite Hc. exact IH.
Qed.

Lemma lstrip_clean_head s : clean_head (lstrip s).
Proof.
  induction s as [|c s IH]; simpl; [exact I|].
  destruct (is_space c) eqn:Hc; [exact IH|]. simpl. exact Hc.
Qed.

Lemma rstrip_clean_head s : clean_head s -> clean_head (rstrip s).
Proof.
  destruct s as [|c s]; simpl; [auto|]. intros Hc.
  destruct (rstrip s); [rewrite Hc|]; simpl; exact Hc.
Qed.

Lemma lstrip_fixed s : clean_head s -> lstrip s = s.
Proof. destruct s as [|c s]; simpl; [auto|]. intros ->. reflexivity. Qed.

Lemma rstrip_idemp s : rstrip (rstrip s) = rstrip s.
Proof.
  induction s as [|c s IH]; simpl; [reflexivity|].
  destruct (rstrip s) as [|k ks] eqn:Hr.
  - destruct (is_space c) eqn:Hc; simpl; [reflexivity|]. rewrite Hc. reflexivity.
  - change (rstrip (c :: k :: ks)) with
      (match rstrip (k :: ks) with
       | [] => if is_space c then [] else [c]
       | kept => c :: kept
       end).
    rewrite IH. reflexivity.
Qed.

Lemma strip_idemp s : strip (strip s) = strip s.
Proof.
  unfold strip.
  rewrite (lstrip_fixed (rstrip (lstrip s))).
  - apply rstrip_idemp.
  - apply rstrip_clean_head, lstrip_clean_head.
Qed.

Lemma sub_class_empty_no_bullets t : no_bullets (sub_class_empty is_bullet t).
Proof.
  unfold no_bullets, sub_class_empty. apply List.Forall_forall.
  intros c Hc. apply List.filter_In in Hc as [_ Hc].
  destruct (is_bullet c); [discriminate | reflexivity].
Qed.

Lemma sub_runs_no_bullets b t :
  no_bullets t -> no_bullets (sub_runs is_space SPACE b t).
Proof.
  unfold no_bullets. intros H. revert b.
  induction H as [|c t Hc Ht IH]; intros b; simpl; [constructor|].
  destruct (is_space c); [destruct b|]; auto using is_bullet_SPACE.
Qed.

Lemma lstrip_no_bullets t : no_bullets t -> no_bullets (lstrip t).
Proof.
  unfold no_bullets. induction 1 as [|c t Hc Ht IH]; simpl; [constructor|].
  destruct (is_space c); auto.
Qed.

Lemma rstrip_no_bullets t : no_bullets t -> no_bullets (rstrip t).
Proof.
  unfold no_bullets. induction 1 as [|c t Hc Ht IH]; simpl; [constructor|].
  destruct (rstrip t); [destruct (is_space c)|]; auto.
Qed.

Lemma no_bullets_fixed t : no_bullets t -> sub_class_empty is_bullet t = t.
Proof.
  unfold no_bullets, sub_class_empty.
  induction 1 as [|c t Hc Ht IH]; simpl; [reflexivity|].
  rewrite Hc. simpl. congruence.
Qed.

Lemma clean_text_no_bullets t : no_bullets (clean_text t).
Proof.
  unfold clean_text, strip, sub_class_plus.
  apply rstrip_no_bullets, lstrip_no_bullets, sub_runs_no_bullets,
    sub_class_empty_no_bullets.
Qed.

Lemma clean_text_single_spaced t : single_spaced false (clean_text t) = true.
Proof.
  unfold clean_text, strip, sub_class_plus.
  apply rstrip_single_spaced, (lstrip_single_spaced false), sub_runs_single_spaced.
Qed.

End CleanText.

(** C5. Cleaning is idempotent: cleaning a cleaned text changes nothing,
    for every text. *)
Theorem clean_text_idempotent (t : str) :
  clean_text (clean_text t) = clean_text t.
Proof.
  set (n := clean_text t).
  assert (Hb : no_bullets n) by apply clean_text_no_bullets.
  assert (Hs : single_spaced false n = true) by apply clean_text_single_spaced.
  unfold clean_text at 1.
  rewrite (no_bullets_fixed n Hb).
  unfold sub_class_plus. rewrite (single_spaced_fixed false n Hs).
  subst n. unfold clean_text. apply strip_idemp.
Qed.

Example clean_text_example :
  clean_text ([0x2022; 32; 32]%N ++ lit "Python -  dev" ++ [10; 9]%N ++ lit "ops | x ")
  = lit "Python dev ops x".
Proof. vm_compute. reflexivity. Qed.

Example extract_example :
  extract_keywords (Fixture.runtime []) Fixture.jd_a
  = list_to_set (List.map lit ["python"; "developer"; "cloud"; "infrastructure"; "kubernetes"]%string).
Proof. vm_compute. reflexivity. Qed.

(** ** Keyword extraction *)

Lemma extract_step_spec (keywords : gset str) (token : Token) (k : str) :
  k ∈ extract_step keywords token ↔
  k ∈ keywords ∨ (inclusion_rule token ∧ token_text token = k).
Proof.
  unfold extract_step, inclusion_rule.
  destruct (bool_decide (pos_ token ∈ [NOUN; PROPN])) eqn:Hpos;
    [apply bool_decide_eq_true in Hpos | apply bool_decide_eq_false in Hpos].
  2:{ simpl. split; [auto|]. intros [H|[(Hp & _) _]]; [exact H|].
      exfalso. apply Hpos. rewrite elem_of_cons, list_elem_of_singleton. exact Hp. }
  assert (Hp : pos_ token = NOUN ∨ pos_ token = PROPN).
  { apply elem_of_cons in Hpos as [Hp|Hpos]; [auto|].
    apply list_elem_of_singleton in Hpos. auto. }
  destruct (is_stop token) eqn:Hstop; simpl.
  { split; [auto|]. intros [H|[(_ & Hs & _) _]]; [exact H | discriminate]. }
  destruct (2 <? Z.of_nat (length (token_text token))) eqn:Hlen;
    [apply Z.ltb_lt in Hlen | apply Z.ltb_ge in Hlen].
  2:{ split; [auto|]. intros [H|[(_ & _ & Hl & _) _]]; [exact H | lia]. }
  destruct (bool_decide (token_text token ∉ ignored)) eqn:Hign;
    [apply bool_decide_eq_true in Hign | apply bool_decide_eq_false in Hign].
  - rewrite elem_of_union, elem_of_singleton.
    split; intros [H|H]; auto.
    + right. split; [|auto]. repeat split; auto. lia.
    + destruct H as [_ H]. auto.
  - split; [auto|]. intros [H|[(_ & _ & _ & Hi) _]]; [exact H | contradiction].
Qed.

Lemma extract_loop_spec (doc : list Token) (keywords : gset str) (k : str) :
  k ∈ fold_left extract_step doc keywords ↔
  k ∈ keywords ∨ ∃ token, In token doc ∧ inclusion_rule token ∧ token_text token = k.
Proof.
  revert keywords. induction doc as [|token doc IH]; intros keywords; simpl.
  - split; [auto|]. intros [H|(t & [] & _)]. exact H.
  - rewrite IH, extract_step_spec. split.
    + intros [[H|H]|(t & Hin & H)]; eauto 6.
    + intros [H|(t & [<-|Hin] & H)]; eauto 6.
Qed.

(** C4. A string is among the extracted keywords exactly when it is the
    surface text of a token of the tagger's output (on the lower-cased
    text) that passes the inclusion rule: noun or proper noun, not a stop
    word, longer than two characters, not on the ignore list. The result
    is a set: its enumeration has no duplicates. *)
Theorem extract_keywords_inclusion_rule (rt : Runtime) (text k : str) :
  (k ∈ extract_keywords rt text ↔
   ∃ token, In token (nlp rt (str_lower rt text))
            ∧ inclusion_rule token ∧ token_text token = k)
  ∧ NoDup (elements (extract_keywords rt text)).
Proof.
  split; [|apply NoDup_elements].
  unfold extract_keywords. rewrite extract_loop_spec.
  split; [intros [H|H]; [set_solver | exact H] | auto].
Qed.

Lemma extract_keywords_inclusion_rule_witness :
  lit "kubernetes" ∈ extract_keywords (Fixture.runtime []) Fixture.jd_a.
Proof.
  apply (extract_keywords_inclusion_rule (Fixture.runtime []) Fixture.jd_a (lit "kubernetes")).
  exists (mkToken (lit "kubernetes") NOUN false).
  split; [vm_compute; tauto|].
  split; [|reflexivity].
  unfold inclusion_rule; simpl.
  split; [auto|]. split; [reflexivity|]. split; [lia|].
  apply (bool_decide_unpack _). vm_compute. exact I.
Defined.

(** ** Reading the upload *)

Lemma pages_loop_raises (pages : list (outcome (option str))) (text : str) :
  Exists raises pages -> raises (pages_loop pages text).
Proof.
  intros H. revert text. induction H as [page rest Hp | page rest _ IH]; intros text; simpl.
  - destruct page; [destruct Hp | exact I].
  - destruct page; simpl; [apply IH | exact I].
Qed.

Lemma pages_loop_returns (pages : list (outcome (option str))) (text : str) :
  Forall (fun page => ¬ raises page) pages -> ∃ t, pages_loop pages text = Return t.
Proof.
  intros H. revert text. induction H as [|page rest Hp _ IH]; intros text; simpl.
  - eauto.
  - destruct page; simpl; [apply IH | destruct Hp; exact I].
Qed.

Lemma para_texts_raises (paragraphs : list (outcome str)) :
  Exists raises paragraphs -> raises (para_texts paragraphs).
Proof.
  induction 1 as [para rest Hp | para rest _ IH]; simpl.
  - destruct para; [destruct Hp | exact I].
  - destruct para; simpl; [|exact I].
    destruct (para_texts rest); [destruct IH | exact I].
Qed.

Lemma para_texts_returns (paragraphs : list (outcome str)) :
  Forall (fun para => ¬ raises para) paragraphs -> ∃ ts, para_texts paragraphs = Return ts.
Proof.
  induction 1 as [|para rest Hp _ [ts IH]]; simpl.
  - eauto.
  - destruct para; simpl; [rewrite IH; simpl; eauto | destruct Hp; exact I].
Qed.

Lemma try_except_returns {A : Type} (body : outcome A) (a : A) :
  ∃ v, try_except body (fun _ => Return a) = Return v.
Proof. destruct body; simpl; eauto. Qed.

Lemma try_except_raises {A : Type} (body : outcome A) (a : A) :
  raises body -> try_except body (fun _ => Return a) = Return a.
Proof. destruct body; simpl; [intros [] | reflexivity]. Qed.

(** C10. [read_file] always returns, a text or [None]. It returns [None]
    when the PDF parser or one of its pages raises, when the document
    parser or one of its paragraphs raises, and when the declared type is
    neither PDF nor a wordprocessingml type, where no branch is taken. It
    returns a text when the parser of the declared type and all its pages
    or paragraphs return. *)
Theorem read_file_never_raises (ps : Parsers) (f : UploadedFile) :
  (∃ v : option str, read_file ps f = Return v)
  ∧ (type f = lit "application/pdf" ->
     raises (PdfReader ps f) -> read_file ps f = Return None)
  ∧ (type f = lit "application/pdf" ->
     ∀ pages, PdfReader ps f = Return pages -> Exists raises pages ->
     read_file ps f = Return None)
  ∧ (type f ≠ lit "application/pdf" ->
     contains (lit "wordprocessingml") (type f) = true ->
     raises (Document ps f) -> read_file ps f = Return None)
  ∧ (type f ≠ lit "application/pdf" ->
     contains (lit "wordprocessingml") (type f) = true ->
     ∀ paragraphs, Document ps f = Return paragraphs -> Exists raises paragraphs ->
     read_file ps f = Return None)
  ∧ (type f ≠ lit "application/pdf" ->
     contains (lit "wordprocessingml") (type f) = false ->
     read_file ps f = Return None)
  ∧ (type f = lit "application/pdf" ->
     ∀ pages, PdfReader ps f = Return pages ->
     Forall (fun page => ¬ raises page) pages ->
     ∃ text, read_file ps f = Return (Some text))
  ∧ (type f ≠ lit "application/pdf" ->
     contains (lit "wordprocessingml") (type f) = true ->
     ∀ paragraphs, Document ps f = Return paragraphs ->
     Forall (fun para => ¬ raises para) paragraphs ->
     ∃ text, read_file ps f = Return (Some text)).
Proof.
  unfold read_file, str_eqb.
  split; [apply try_except_returns|].
  split; [|split; [|split; [|split; [|split; [|split]]]]].
  - intros Ht Hr. rewrite bool_decide_eq_true_2 by exact Ht.
    apply try_except_raises. destruct (PdfReader ps f); [destruct Hr | exact I].
  - intros Ht pages Hp Hr. rewrite bool_decide_eq_true_2 by exact Ht.
    apply try_except_raises. rewrite Hp. simpl.
    pose proof (pages_loop_raises pages [] Hr) as H.
    destruct (pages_loop pages []); [destruct H | exact I].
  - intros Ht Hc Hr. rewrite bool_decide_eq_false_2 by exact Ht. rewrite Hc.
    apply try_except_raises. destruct (Document ps f); [destruct Hr | exact I].
  - intros Ht Hc paragraphs Hp Hr. rewrite bool_decide_eq_false_2 by exact Ht. rewrite Hc.
    apply try_except_raises. rewrite Hp. simpl.
    pose proof (para_texts_raises paragraphs Hr) as H.
    destruct (para_texts paragraphs); [destruct H | exact I].
  - intros Ht Hc. rewrite bool_decide_eq_false_2 by exact Ht. rewrite Hc. reflexivity.
  - intros Ht pages Hp Hr. rewrite bool_decide_eq_true_2 by exact Ht.
    rewrite Hp. simpl. destruct (pages_loop_returns pages [] Hr) as [text ->].
    simpl. eauto.
  - intros Ht Hc paragraphs Hp Hr. rewrite bool_decide_eq_false_2 by exact Ht. rewrite Hc.
    rewrite Hp. simpl. destruct (para_texts_returns paragraphs Hr) as [ts ->].
    simpl. eauto.
Qed.

Lemma read_file_never_raises_witness :
  read_file Fixture.parsers Fixture.broken_pdf = Return None
  ∧ read_file Fixture.parsers Fixture.torn_pdf = Return None
  ∧ read_file Fixture.parsers Fixture.broken_docx = Return None
  ∧ read_file Fixture.parsers Fixture.torn_docx = Return None
  ∧ read_file Fixture.parsers Fixture.text_file = Return None.
Proof.
  split; [|split; [|split; [|split]]].
  - apply (proj1 (proj2 (read_file_never_raises Fixture.parsers Fixture.broken_pdf)));
      [reflexivity | exact I].
  - apply (proj1 (proj2 (proj2 (read_file_never_raises Fixture.parsers Fixture.torn_pdf)))
             eq_refl _ eq_refl).
    apply Exists_cons_tl, Exists_cons_hd. exact I.
  - apply (proj1 (proj2 (proj2 (proj2
             (read_file_never_raises Fixture.parsers Fixture.broken_docx)))));
      [discriminate | reflexivity | exact I].
  - apply (proj1 (proj2 (proj2 (proj2 (proj2
             (read_file_never_raises Fixture.parsers Fixture.torn_docx)))))
             ltac:(discriminate) eq_refl _ eq_refl).
    apply Exists_cons_tl, Exists_cons_hd. exact I.
  - apply (proj1 (proj2 (proj2 (proj2 (proj2 (proj2
             (read_file_never_raises Fixture.parsers Fixture.text_file)))))));
      [discriminate | reflexivity].
Defined.

(** ** Scores *)

Lemma round_half_even_comp (x y : Q) : x == y -> round_half_even x = round_half_even y.
Proof.
  intros H. unfold round_half_even.
  rewrite (Qfloor_comp x y H).
  assert (Hc : Qcompare (x - inject_Z (Qfloor y)) (1 # 2)
               = Qcompare (y - inject_Z (Qfloor y)) (1 # 2)).
  { apply Qcompare_comp; [rewrite H|]; reflexivity. }
  rewrite Hc. reflexivity.
Qed.

Lemma round_comp (x y : Q) (ndigits : nat) : x == y -> round x ndigits = round y ndigits.
Proof.
  intros H. unfold round.
  rewrite (round_half_even_comp (x * _) (y * inject_Z (10 ^ Z.of_nat ndigits))).
  - reflexivity.
  - rewrite H. reflexivity.
Qed.

Lemma ratio_percent (m t : Z) :
  0 < t -> (inject_Z m / inject_Z t * 100 == Qmake (100 * m) (Z.to_pos t))%Q.
Proof.
  intros Ht. destruct t as [|p|p]; try lia.
  unfold Qeq, Qdiv, Qmult, Qinv, inject_Z. simpl. lia.
Qed.

Lemma len_nonneg (s : gset str) : 0 <= len s.
Proof. unfold len. lia. Qed.

Lemma len_zero (s : gset str) : len s = 0 <-> s = ∅.
Proof.
  unfold len. split.
  - intros H. apply leibniz_equiv, size_empty_inv. lia.
  - intros ->. rewrite size_empty. reflexivity.
Qed.

Lemma len_intersection_le (a b : gset str) : len (a ∩ b) <= len b.
Proof.
  unfold len. apply inj_le, subseteq_size.
  intros k Hk. apply elem_of_intersection in Hk. tauto.
Qed.


Lemma returns_impl {A : Type} (m : outcome A) (P P' : A -> Prop) :
  (forall a, P a -> P' a) -> returns m P -> returns m P'.
Proof. destruct m; simpl; auto. Qed.

Lemma true_div_nonzero (a b : Z) :
  b ≠ 0 -> true_div a b = Return (inject_Z a / inject_Z b)%Q.
Proof.
  intros Hb. unfold true_div.
  destruct (b =? 0) eqn:E; [apply Z.eqb_eq in E; contradiction | reflexivity].
Qed.

Lemma exact_match_score_empty (res_keys : gset str) :
  exact_match_score res_keys ∅ = Return 0%Q.
Proof. reflexivity. Qed.

(** The guard makes the division safe: with job keywords, the score is
    the value of the quotient times 100. *)
Lemma exact_match_score_nonempty (res_keys jd_keys : gset str) :
  jd_keys ≠ ∅ ->
  exact_match_score res_keys jd_keys
  = Return (inject_Z (len (res_keys ∩ jd_keys)) / inject_Z (len jd_keys) * 100)%Q.
Proof.
  intros Hne. unfold exact_match_score.
  assert (Ht : len jd_keys ≠ 0) by (rewrite len_zero; exact Hne).
  destruct (len jd_keys =? 0) eqn:E; [apply Z.eqb_eq in E; contradiction|].
  rewrite (true_div_nonzero _ _ Ht). reflexivity.
Qed.

Lemma exact_match_score_eq (res_keys jd_keys : gset str) :
  jd_keys ≠ ∅ ->
  returns (exact_match_score res_keys jd_keys) (fun score =>
    score == Qmake (100 * len (res_keys ∩ jd_keys)) (Z.to_pos (len jd_keys)))%Q.
Proof.
  intros Hne. rewrite (exact_match_score_nonempty _ _ Hne). simpl.
  assert (Ht : len jd_keys ≠ 0) by (rewrite len_zero; exact Hne).
  pose proof (len_nonneg jd_keys).
  apply ratio_percent. lia.
Qed.

(** The exact-match score never raises and is a percentage. *)
Lemma exact_match_score_bounds (res_keys jd_keys : gset str) :
  returns (exact_match_score res_keys jd_keys) (fun score => 0 <= score <= 100)%Q.
Proof.
  destruct (decide (jd_keys = ∅)) as [->|Hne].
  - rewrite exact_match_score_empty. simpl. split; discriminate.
  - eapply returns_impl; [|apply (exact_match_score_eq res_keys _ Hne)].
    intros score Hs. simpl in Hs. rewrite Hs.
    pose proof (len_nonneg (res_keys ∩ jd_keys)).
    pose proof (len_intersection_le res_keys jd_keys).
    pose proof (len_nonneg jd_keys).
    assert (len jd_keys ≠ 0) by (rewrite len_zero; exact Hne).
    unfold Qle. simpl. rewrite Z2Pos.id by lia. lia.
Qed.

(** What a run binds, line by line; in particular a run always returns. *)
Lemma calculate_locals_spec (rt : Runtime) (resume_text jd_text : str) :
  returns (calculate_locals rt resume_text jd_text) (fun l =>
    clean_resume l = clean_text resume_text
    ∧ clean_jd l = clean_text jd_text
    ∧ res_keys l = extract_keywords rt (clean_resume l)
    ∧ jd_keys l = extract_keywords rt (clean_jd l)
    ∧ exact_match_score (res_keys l) (jd_keys l) = Return (keyword_score l)
    ∧ similarity l = cos_sim rt (encode rt (clean_resume l)) (encode rt (clean_jd l))
    ∧ semantic_score l = (similarity l * 100)%Q
    ∧ final_score l = weighted_score (keyword_score l) (semantic_score l)
    ∧ calculate_scores rt resume_text jd_text = Return (report_of l)).
Proof.
  unfold calculate_scores, calculate_locals.
  pose proof (exact_match_score_bounds (extract_keywords rt (clean_text resume_text))
                (extract_keywords rt (clean_text jd_text))) as H.
  destruct (exact_match_score _ _) as [score|e] eqn:E; [|destruct H].
  simpl. repeat split. exact E.
Qed.

(** ** Matched and missing sets *)

(** C3. Every run returns a report whose matched set is the intersection
    of the two keyword sets and whose missing set is the job keywords
    without the resume keywords; so they cover the job keywords, are
    disjoint, and the matched ones are resume keywords. *)
Theorem matched_missing_set_laws (rt : Runtime) (resume_text jd_text : str) :
  returns (calculate_locals rt resume_text jd_text) (fun l =>
  returns (calculate_scores rt resume_text jd_text) (fun report =>
    matched report = res_keys l ∩ jd_keys l
    ∧ missing report = jd_keys l ∖ res_keys l
    ∧ matched report ∪ missing report = jd_keys l
    ∧ matched report ∩ missing report = ∅
    ∧ matched report ⊆ res_keys l)).
Proof.
  eapply returns_impl; [|apply calculate_locals_spec].
  intros l (_ & _ & _ & _ & _ & _ & _ & _ & Hrun). rewrite Hrun. simpl.
  set (r := res_keys l). set (j := jd_keys l).
  split; [reflexivity|]. split; [reflexivity|]. split; [|split].
  - apply set_eq. intros k. rewrite elem_of_union, elem_of_intersection, elem_of_difference.
    destruct (decide (k ∈ r)); tauto.
  - apply set_eq. intros k.
    rewrite !elem_of_intersection, elem_of_difference, elem_of_empty. tauto.
  - intros k Hk. apply elem_of_intersection in Hk. tauto.
Qed.

(** ** The caller of the pipeline *)

Lemma on_analyze_of_result (rt : Runtime) (ps : Parsers) (jd_input : str)
    (file : UploadedFile) (resume_text : option str) :
  truthy jd_input = true ->
  read_file ps file = Return resume_text ->
  on_analyze rt ps jd_input (Some file) =
  if truthy_opt resume_text
  then Invoke_calculate_scores (default [] resume_text) jd_input ::
       match Binary64.calculate_scores rt (default [] resume_text) jd_input with
       | Raise e => [Uncaught e]
       | Return results => display_effects results
       end
  else [].
Proof. intros Hj Hr. unfold on_analyze. rewrite Hj, Hr. reflexivity. Qed.

Lemma on_analyze_without_jd (rt : Runtime) (ps : Parsers)
    (uploaded_file : option UploadedFile) :
  on_analyze rt ps [] uploaded_file
  = [St_error "Please provide both a Job Description and a Resume file."].
Proof. reflexivity. Qed.

(** C9. When [read_file] returns the empty string, the handler does what
    it does when [read_file] returns [None]: none of its effects is a call
    of [calculate_scores] or a part of a report, and the effects are those
    of a failed extraction. Both values are false for the test the handler
    makes. *)
Theorem empty_text_skips_pipeline (rt : Runtime) (ps : Parsers) (jd_input : str)
    (file : UploadedFile) :
  read_file ps file = Return (Some []) ->
  (∀ e, In e (on_analyze rt ps jd_input (Some file)) -> runs_pipeline e = false)
  ∧ (∀ failed, read_file ps failed = Return None ->
       on_analyze rt ps jd_input (Some file) = on_analyze rt ps jd_input (Some failed))
  ∧ truthy_opt (Some []) = truthy_opt None.
Proof.
  intros Hr. destruct (truthy jd_input) eqn:Hj.
  - split; [|split; [|reflexivity]].
    + rewrite (on_analyze_of_result rt ps jd_input file _ Hj Hr). simpl. intros e [].
    + intros failed Hf.
      rewrite (on_analyze_of_result rt ps jd_input file _ Hj Hr).
      rewrite (on_analyze_of_result rt ps jd_input failed _ Hj Hf). reflexivity.
  - destruct jd_input; [|discriminate].
    split; [|split; [|reflexivity]].
    + rewrite on_analyze_without_jd. intros e [<-|[]]. reflexivity.
    + intros failed _. rewrite !on_analyze_without_jd. reflexivity.
Qed.

Lemma empty_text_skips_pipeline_witness :
  read_file Fixture.parsers Fixture.blank_pdf = Return (Some [])
  ∧ on_analyze (Fixture.runtime []) Fixture.parsers Fixture.jd_a (Some Fixture.blank_pdf)
    = on_analyze (Fixture.runtime []) Fixture.parsers Fixture.jd_a (Some Fixture.broken_pdf).
Proof.
  split; [reflexivity|].
  exact (proj1 (proj2 (empty_text_skips_pipeline (Fixture.runtime []) Fixture.parsers
                         Fixture.jd_a Fixture.blank_pdf eq_refl))
           Fixture.broken_pdf eq_refl).
Defined.

(** A document with text does start the pipeline. *)
Example text_runs_pipeline :
  List.forallb runs_pipeline
    (on_analyze (Fixture.runtime []) Fixture.parsers Fixture.jd_a (Some Fixture.plain_docx))
  = true
  ∧ length (on_analyze (Fixture.runtime []) Fixture.parsers Fixture.jd_a
              (Some Fixture.plain_docx)) = 13%nat.
Proof. vm_compute. split; reflexivity. Qed.

(** ** The weighted score and its range *)

(** With a similarity between 0 and 1 the weighted sum is a percentage. *)
Lemma weighted_score_bounds (keyword_score semantic_score : Q) :
  (0 <= keyword_score <= 100)%Q -> (0 <= semantic_score <= 100)%Q ->
  (0 <= weighted_score keyword_score semantic_score <= 100)%Q.
Proof.
  intros [Hk0 Hk1] [Hs0 Hs1]. unfold weighted_score. split.
  - apply (Qle_trans _ (0 * (6 # 10) + 0 * (4 # 10))); [discriminate|].
    apply Qplus_le_compat; apply Qmult_le_compat_r; auto; discriminate.
  - apply (Qle_trans _ (100 * (6 # 10) + 100 * (4 # 10))); [|discriminate].
    apply Qplus_le_compat; apply Qmult_le_compat_r; auto; discriminate.
Qed.



Lemma add_nonempty (s : gset str) (k : str) : s ∪ {[k]} ≠ ∅.
Proof.
  intros H. apply (not_elem_of_empty (C := gset str) k).
  rewrite <- H. apply elem_of_union. right. apply elem_of_singleton. reflexivity.
Qed.

Lemma round_half_even_range (x : Q) (lo hi : Z) :
  (inject_Z lo <= x)%Q -> (x <= inject_Z hi)%Q -> lo <= round_half_even x <= hi.
Proof.
  intros Hlo Hhi. unfold round_half_even.
  assert (Hf : lo <= Qfloor x).
  { rewrite <- (Qfloor_Z lo). apply Qfloor_resp_le. exact Hlo. }
  assert (Hc : Qfloor x <= hi).
  { rewrite <- (Qfloor_Z hi). apply Qfloor_resp_le. exact Hhi. }
  destruct (Z.eq_dec (Qfloor x) hi) as [E|E].
  - assert (Hx : x == inject_Z (Qfloor x)).
    { apply Qle_antisym; [rewrite E; exact Hhi | apply Qfloor_le]. }
    assert (Hcmp : Qcompare (x - inject_Z (Qfloor x)) (1 # 2) = Lt).
    { assert (Hd : x - inject_Z (Qfloor x) == 0) by (rewrite <- Hx; ring).
      rewrite (Qcompare_comp _ _ Hd (1 # 2) (1 # 2) (Qeq_refl _)). reflexivity. }
    rewrite Hcmp. lia.
  - destruct (Qcompare (x - inject_Z (Qfloor x)) (1 # 2)); [destruct (Z.even _)| |]; lia.
Qed.

Lemma round_percent (x : Q) : (0 <= x <= 100)%Q -> (0 <= round x 1 <= 100)%Q.
Proof.
  intros [H0 H1]. unfold round.
  change (inject_Z (10 ^ Z.of_nat 1)) with (inject_Z 10).
  pose proof (round_half_even_range (x * inject_Z 10) 0 1000) as H.
  destruct H as [Ha Hb].
  - apply (Qle_trans _ (0 * inject_Z 10)); [discriminate|].
    apply Qmult_le_compat_r; [exact H0 | discriminate].
  - apply (Qle_trans _ (100 * inject_Z 10)); [|discriminate].
    apply Qmult_le_compat_r; [exact H1 | discriminate].
  - set (n := round_half_even (x * inject_Z 10)) in *.
    unfold Qle, Qdiv, Qmult, Qinv, inject_Z. simpl. lia.
Qed.

(** When the similarity lies between 0 and 1, every score of the report is
    a percentage. *)
Lemma report_bounds_of_unit_similarity (rt : Runtime) (resume_text jd_text : str) :
  returns (calculate_locals rt resume_text jd_text) (fun l =>
    (0 <= similarity l <= 1)%Q ->
    (0 <= final (report_of l) <= 100)%Q
    ∧ (0 <= keyword (report_of l) <= 100)%Q
    ∧ (0 <= semantic (report_of l) <= 100)%Q).
Proof.
  eapply returns_impl; [|apply calculate_locals_spec].
  intros l (_ & _ & _ & _ & Hk & _ & Hs & Hf & _) [H0 H1].
  pose proof (exact_match_score_bounds (res_keys l) (jd_keys l)) as Hkb.
  rewrite Hk in Hkb. simpl in Hkb.
  assert (Hsb : (0 <= semantic_score l <= 100)%Q).
  { rewrite Hs. split.
    - apply (Qle_trans _ (0 * 100)); [discriminate|].
      apply Qmult_le_compat_r; [exact H0 | discriminate].
    - apply (Qle_trans _ (1 * 100)); [|discriminate].
      apply Qmult_le_compat_r; [exact H1 | discriminate]. }
  simpl. rewrite Hf.
  split; [|split]; apply round_percent; auto using weighted_score_bounds.
Qed.

(** Rounding the two scores before the sum would give another result: two
    of seven keywords and a similarity of 0 give 17.1, the rounded keyword
    score 28.6 would give 17.2. *)
Example unrounded_inputs_matter :
  (weighted_score (200 # 7) 0 == 120 # 7)%Q
  ∧ round (weighted_score (200 # 7) 0) 1 = (inject_Z 171 / inject_Z 10)%Q
  ∧ round (200 # 7) 1 = (inject_Z 286 / inject_Z 10)%Q
  ∧ round (weighted_score (round (200 # 7) 1) (round 0 1)) 1 = (inject_Z 172 / inject_Z 10)%Q.
Proof. vm_compute. repeat split. Qed.

(** ** The exact-match score *)



(** ** The range of the final score *)

(** C6. The bounds hold for the keyword score, and fail for the final
    score: for two texts without a common keyword whose embeddings have
    cosine -1/20, the run returns a keyword score of 0, a semantic score
    of -5 and a report whose final score is -2. *)
Theorem final_score_below_zero :
  returns (calculate_locals (Fixture.runtime Fixture.table_b)
             Fixture.resume_b Fixture.jd_b) (fun l =>
  returns (calculate_scores (Fixture.runtime Fixture.table_b)
             Fixture.resume_b Fixture.jd_b) (fun report =>
    (similarity l == - (1 # 20))%Q
    ∧ (keyword_score l == 0)%Q
    ∧ (semantic_score l == -5)%Q
    ∧ (final report == -2)%Q
    ∧ ¬ (0 <= final report)%Q)).
Proof.
  destruct (calculate_locals (Fixture.runtime Fixture.table_b)
              Fixture.resume_b Fixture.jd_b) as [l|e] eqn:El;
    [|vm_compute in El; discriminate El].
  vm_compute in El. injection El as <-. simpl.
  destruct (calculate_scores (Fixture.runtime Fixture.table_b)
              Fixture.resume_b Fixture.jd_b) as [report|e] eqn:Er;
    [|vm_compute in Er; discriminate Er].
  vm_compute in Er. injection Er as <-. simpl.
  split; [reflexivity|].
  split; [reflexivity|].
  split; [reflexivity|].
  split; [reflexivity|].
  intros H. vm_compute in H. apply H. reflexivity.
Qed.

(** * Further properties *)

(** ** Text cleaning: what is kept and what is dropped *)

Arguments word_char : simpl never.

Lemma is_space_not_bullet (c : char) : is_space c = true -> is_bullet c = false.
Proof.
  intros Hs. destruct (is_bullet c) eqn:Hb; [|reflexivity].
  unfold is_bullet, bullets in Hb. simpl in Hb.
  repeat (apply orb_prop in Hb as [Hb|Hb];
          [apply N.eqb_eq in Hb; subst c; vm_compute in Hs; discriminate Hs|]).
  discriminate Hb.
Qed.

Lemma word_char_SPACE : word_char SPACE = false.
Proof. reflexivity. Qed.

Lemma word_char_bullet (c : char) : is_bullet c = true -> word_char c = false.
Proof. unfold word_char. intros ->. reflexivity. Qed.

Lemma word_char_space (c : char) : is_space c = true -> word_char c = false.
Proof. unfold word_char. intros ->. apply andb_false_r. Qed.

Lemma filter_word_sub_class_empty (t : str) :
  List.filter word_char (sub_class_empty is_bullet t) = List.filter word_char t.
Proof.
  unfold sub_class_empty. induction t as [|c t IH]; simpl; [reflexivity|].
  destruct (is_bullet c) eqn:Hb; simpl.
  - rewrite (word_char_bullet c Hb). exact IH.
  - rewrite IH. reflexivity.
Qed.

Lemma filter_word_sub_runs (b : bool) (t : str) :
  List.filter word_char (sub_runs is_space SPACE b t) = List.filter word_char t.
Proof.
  revert b. induction t as [|c t IH]; intros b; simpl; [reflexivity|].
  destruct (is_space c) eqn:Hc.
  - rewrite (word_char_space c Hc). destruct b; simpl; apply IH.
  - simpl. rewrite IH. reflexivity.
Qed.

Lemma filter_word_lstrip (t : str) :
  List.filter word_char (lstrip t) = List.filter word_char t.
Proof.
  induction t as [|c t IH]; simpl; [reflexivity|].
  destruct (is_space c) eqn:Hc; [|reflexivity].
  rewrite (word_char_space c Hc). exact IH.
Qed.

Lemma filter_word_rstrip (t : str) :
  List.filter word_char (rstrip t) = List.filter word_char t.
Proof.
  induction t as [|c t IH]; simpl; [reflexivity|].
  destruct (rstrip t) as [|k ks].
  - rewrite <- IH. destruct (is_space c) eqn:Hc; simpl.
    + rewrite (word_char_space c Hc). reflexivity.
    + reflexivity.
  - change (List.filter word_char (c :: k :: ks))
      with (if word_char c then c :: List.filter word_char (k :: ks)
            else List.filter word_char (k :: ks)).
    rewrite IH. reflexivity.
Qed.

Lemma filter_word_clean_text (t : str) :
  List.filter word_char (clean_text t) = List.filter word_char t.
Proof.
  unfold clean_text, strip, sub_class_plus.
  rewrite filter_word_rstrip, filter_word_lstrip, filter_word_sub_runs.
  apply filter_word_sub_class_empty.
Qed.

(** X1. Cleaning keeps every character that is neither a bullet nor white
    space, in the same order and with the same number of occurrences. *)
Theorem clean_text_keeps_word_chars (t : str) :
  List.filter word_char (clean_text t) = List.filter word_char t.
Proof. apply filter_word_clean_text. Qed.

Lemma single_spaced_spaces (b : bool) (s : str) :
  single_spaced b s = true -> ∀ c, In c s -> is_space c = true -> c = SPACE.
Proof.
  revert b. induction s as [|x s IH]; intros b H c Hin Hc; [destruct Hin|].
  simpl in H. destruct (is_space x) eqn:Hx.
  - apply andb_prop in H as [H Hs]. apply andb_prop in H as [Heq _].
    apply N.eqb_eq in Heq. destruct Hin as [<-|Hin]; [exact Heq | eauto].
  - destruct Hin as [<-|Hin]; [congruence | eauto].
Qed.

Lemma single_spaced_no_pair (b : bool) (a r : str) :
  single_spaced b (a ++ SPACE :: SPACE :: r) = false.
Proof.
  revert b. induction a as [|x a IH]; intros b.
  - cbn [app single_spaced]. rewrite is_space_SPACE, N.eqb_refl. simpl.
    rewrite andb_false_r. reflexivity.
  - cbn [app single_spaced]. destruct (is_space x).
    + rewrite IH. apply andb_false_r.
    + apply IH.
Qed.

Lemma rstrip_last (s r : str) (c : char) : rstrip s = r ++ [c] -> is_space c = false.
Proof.
  revert r. induction s as [|x s IH]; intros r H; simpl in H.
  - destruct r; discriminate H.
  - destruct (rstrip s) as [|k ks] eqn:Hr.
    + destruct (is_space x) eqn:Hx; [destruct r; discriminate H|].
      destruct r as [|y r]; [injection H as <-; exact Hx|].
      destruct r; discriminate H.
    + destruct r as [|y r]; [discriminate H|].
      injection H as _ H. apply (IH r). exact H.
Qed.

Lemma rstrip_fixed (s : str) :
  (∀ r c, s = r ++ [c] -> is_space c = false) -> rstrip s = s.
Proof.
  induction s as [|x s IH]; intros H; simpl; [reflexivity|].
  rewrite IH.
  - destruct s as [|k ks]; [|reflexivity].
    rewrite (H [] x eq_refl). reflexivity.
  - intros r c ->. apply (H (x :: r) c). reflexivity.
Qed.

Lemma clean_text_tidy (t : str) : tidy (clean_text t).
Proof.
  pose proof (clean_text_no_bullets t) as Hb.
  pose proof (clean_text_single_spaced t) as Hs.
  split; [|split; [|split]].
  - intros c Hc. split.
    + unfold no_bullets in Hb. rewrite List.Forall_forall in Hb. apply Hb, Hc.
    + apply (single_spaced_spaces false _ Hs c Hc).
  - intros a b E. rewrite E, single_spaced_no_pair in Hs. discriminate Hs.
  - intros r E.
    assert (Hh : clean_head (clean_text t)).
    { unfold clean_text, strip. apply rstrip_clean_head, lstrip_clean_head. }
    rewrite E in Hh. simpl in Hh. rewrite is_space_SPACE in Hh. discriminate Hh.
  - intros r E. unfold clean_text, strip in E.
    apply rstrip_last in E. rewrite is_space_SPACE in E. discriminate E.
Qed.

Lemma tidy_single_spaced (b : bool) (s : str) :
  (∀ c, In c s -> is_space c = true -> c = SPACE) ->
  (∀ a r, s ≠ a ++ SPACE :: SPACE :: r) ->
  (b = true -> ∀ r, s ≠ SPACE :: r) ->
  single_spaced b s = true.
Proof.
  revert b. induction s as [|x s IH]; intros b Hsp Hpair Hhead; simpl; [reflexivity|].
  assert (Hpair' : ∀ a r, s ≠ a ++ SPACE :: SPACE :: r).
  { intros a r ->. apply (Hpair (x :: a) r). reflexivity. }
  assert (Hsp' : ∀ c, In c s -> is_space c = true -> c = SPACE).
  { intros c Hc. apply Hsp. right. exact Hc. }
  destruct (is_space x) eqn:Hx.
  - assert (x = SPACE) as -> by (apply Hsp; [left; reflexivity | exact Hx]).
    rewrite N.eqb_refl. simpl.
    destruct b; [exfalso; apply (Hhead eq_refl s); reflexivity|]. simpl.
    apply IH; auto. intros _ r ->. apply (Hpair [] r). reflexivity.
  - apply IH; auto; discriminate.
Qed.

Lemma tidy_fixed (t : str) : tidy t -> clean_text t = t.
Proof.
  intros (Hc & Hpair & Hhead & Hlast).
  assert (Hspace : ∀ c, In c t -> is_space c = true -> c = SPACE).
  { intros c Hin. apply (Hc c Hin). }
  unfold clean_text.
  rewrite no_bullets_fixed.
  2:{ unfold no_bullets. apply List.Forall_forall. intros c Hin. apply (Hc c Hin). }
  unfold sub_class_plus. rewrite single_spaced_fixed.
  2:{ apply tidy_single_spaced; auto; discriminate. }
  unfold strip. rewrite lstrip_fixed.
  - apply rstrip_fixed. intros r c -> .
    destruct (is_space c) eqn:Hsc; [|reflexivity].
    assert (c = SPACE) as -> by (apply Hspace; [apply in_or_app; right; left; reflexivity | exact Hsc]).
    exfalso. apply (Hlast r). reflexivity.
  - destruct t as [|c r]; simpl; [exact I|].
    destruct (is_space c) eqn:Hsc; [|reflexivity].
    assert (c = SPACE) as -> by (apply Hspace; [left; reflexivity | exact Hsc]).
    exfalso. apply (Hhead r). reflexivity.
Qed.

(** X2. A cleaned text is tidy: it holds no bullet, its only white space
    is the single space, never two in a row and never at an end. The
    texts that cleaning leaves unchanged are exactly the tidy ones. *)
Theorem clean_text_fixed_points (t : str) :
  tidy (clean_text t) ∧ (clean_text t = t ↔ tidy t).
Proof.
  split; [apply clean_text_tidy|].
  split; [intros <-; apply clean_text_tidy | apply tidy_fixed].
Qed.

Lemma clean_text_fixed_points_witness :
  clean_text (lit "Python dev") = lit "Python dev".
Proof.
  apply (proj2 (clean_text_fixed_points (lit "Python dev"))).
  split; [|split; [|split]].
  - intros c Hc. vm_compute in Hc.
    repeat (destruct Hc as [<-|Hc];
      [split; [reflexivity | intros H; vm_compute in H; first [reflexivity | discriminate H]]|]).
    destruct Hc.
  - intros a b E. pose proof (f_equal (single_spaced false) E) as H.
    rewrite single_spaced_no_pair in H. vm_compute in H. discriminate H.
  - intros r E. vm_compute in E. discriminate E.
  - intros r E. apply (f_equal (@List.rev N)) in E. rewrite List.rev_app_distr in E.
    vm_compute in E. discriminate E.
Defined.

Lemma clean_text_empty_iff (t : str) :
  clean_text t = [] ↔ Forall (fun c => word_char c = false) t.
Proof.
  split.
  - intros E. pose proof (filter_word_clean_text t) as H. rewrite E in H. simpl in H.
    apply List.Forall_forall. intros c Hc.
    destruct (word_char c) eqn:Hw; [|reflexivity].
    assert (Hin : In c (List.filter word_char t)) by (apply List.filter_In; auto).
    rewrite <- H in Hin. destruct Hin.
  - intros Hall.
    destruct (clean_text_tidy t) as (Hc & _ & Hhead & _).
    pose proof (filter_word_clean_text t) as H.
    assert (Hnil : List.filter word_char t = []).
    { rewrite List.Forall_forall in Hall. clear -Hall.
      induction t as [|c t IH]; simpl; [reflexivity|].
      rewrite (Hall c (or_introl eq_refl)). apply IH.
      intros x Hx. apply Hall. right. exact Hx. }
    rewrite Hnil in H.
    destruct (clean_text t) as [|c r]; [reflexivity|]. exfalso.
    destruct (Hc c (or_introl eq_refl)) as [Hb Hs].
    simpl in H. destruct (word_char c) eqn:Hw; [discriminate H|].
    unfold word_char in Hw. rewrite Hb in Hw. simpl in Hw.
    apply negb_false_iff in Hw. apply (Hhead r). rewrite (Hs Hw). reflexivity.
Qed.

(** X3. The cleaned text is empty exactly when every character of the
    text is a bullet or white space. *)
Theorem clean_text_empty (t : str) :
  clean_text t = [] ↔ Forall (fun c => is_bullet c = true ∨ is_space c = true) t.
Proof.
  rewrite clean_text_empty_iff. split; intros H; eapply List.Forall_impl; try exact H;
    intros c; unfold word_char; simpl.
  - destruct (is_bullet c), (is_space c); simpl; auto; discriminate.
  - intros [-> | ->]; simpl; [reflexivity | apply andb_false_r].
Qed.

Lemma clean_text_empty_witness :
  clean_text ([0x2022; 32; 10; 0x2D; 9]%N) = [].
Proof.
  apply (proj2 (clean_text_empty _)).
  repeat (apply List.Forall_cons; [first [left; reflexivity | right; reflexivity]|]).
  apply List.Forall_nil.
Defined.

Lemma sub_class_empty_app (cls : char -> bool) (a c : str) :
  sub_class_empty cls (a ++ c) = sub_class_empty cls a ++ sub_class_empty cls c.
Proof. unfold sub_class_empty. apply List.filter_app. Qed.

(** X4. A bullet is deleted and leaves no gap: the text with a bullet
    between two parts is cleaned like the two parts put together, so the
    words on both sides of a hyphen become one. *)
Theorem clean_text_bullet_leaves_no_gap (a c : str) (b : char) :
  is_bullet b = true -> clean_text (a ++ b :: c) = clean_text (a ++ c).
Proof.
  intros Hb. unfold clean_text. rewrite !sub_class_empty_app.
  unfold sub_class_empty at 2. simpl. rewrite Hb. reflexivity.
Qed.

Lemma clean_text_bullet_leaves_no_gap_witness :
  clean_text (lit "front-end") = lit "frontend".
Proof.
  transitivity (clean_text (lit "front" ++ lit "end")).
  - exact (clean_text_bullet_leaves_no_gap (lit "front") (lit "end") 0x2D%N eq_refl).
  - vm_compute. reflexivity.
Defined.

Lemma sub_runs_space_swap (b : bool) (a c : str) (w w' : char) :
  is_space w = true -> is_space w' = true ->
  sub_runs is_space SPACE b (a ++ w :: c) = sub_runs is_space SPACE b (a ++ w' :: c).
Proof.
  intros Hw Hw'. revert b. induction a as [|x a IH]; intros b; simpl.
  - rewrite Hw, Hw'. reflexivity.
  - destruct (is_space x); [destruct b|]; rewrite IH; reflexivity.
Qed.

Lemma sub_runs_space_double (b : bool) (a c : str) (w w' : char) :
  is_space w = true -> is_space w' = true ->
  sub_runs is_space SPACE b (a ++ w :: w' :: c) = sub_runs is_space SPACE b (a ++ w :: c).
Proof.
  intros Hw Hw'. revert b. induction a as [|x a IH]; intros b; simpl.
  - rewrite Hw, Hw'. reflexivity.
  - destruct (is_space x); [destruct b|]; rewrite IH; reflexivity.
Qed.

Lemma sub_class_empty_space (w : char) (c : str) :
  is_space w = true ->
  sub_class_empty is_bullet (w :: c) = w :: sub_class_empty is_bullet c.
Proof.
  intros Hw. unfold sub_class_empty. simpl.
  rewrite (is_space_not_bullet w Hw). reflexivity.
Qed.

(** X5. Every white space character counts as a space, and a second one
    after it counts for nothing: a tab or a line break in a text is
    cleaned like a space, and a run of two like the first alone. *)
Theorem clean_text_white_space (a c : str) (w w' : char) :
  is_space w = true -> is_space w' = true ->
  clean_text (a ++ w :: c) = clean_text (a ++ SPACE :: c)
  ∧ clean_text (a ++ w :: w' :: c) = clean_text (a ++ w :: c).
Proof.
  intros Hw Hw'. unfold clean_text, sub_class_plus.
  rewrite !sub_class_empty_app.
  rewrite (sub_class_empty_space w (w' :: c) Hw), (sub_class_empty_space w' c Hw').
  rewrite (sub_class_empty_space w c Hw), (sub_class_empty_space SPACE c is_space_SPACE).
  split.
  - rewrite (sub_runs_space_swap false _ _ w SPACE Hw is_space_SPACE). reflexivity.
  - rewrite (sub_runs_space_double false _ _ w w' Hw Hw'). reflexivity.
Qed.

Lemma clean_text_white_space_witness :
  clean_text (lit "cloud" ++ 9%N :: lit "ops") = clean_text (lit "cloud" ++ SPACE :: lit "ops")
  ∧ clean_text (lit "cloud" ++ 9%N :: 10%N :: lit "ops")
    = clean_text (lit "cloud" ++ 9%N :: lit "ops").
Proof.
  exact (clean_text_white_space (lit "cloud") (lit "ops") 9%N 10%N eq_refl eq_refl).
Defined.

(** ** Keyword extraction: what the result depends on *)

Lemma extract_keywords_elem (rt : Runtime) (text k : str) :
  k ∈ extract_keywords rt text ↔
  ∃ token, In token (nlp rt (str_lower rt text))
           ∧ inclusion_rule token ∧ token_text token = k.
Proof.
  unfold extract_keywords. rewrite extract_loop_spec.
  split; [intros [H|H]; [|exact H] | auto].
  apply elem_of_empty in H. destruct H.
Qed.

(** X6. The keywords depend on which tokens the tagger returns, not on
    their order or on how often each occurs: two taggings with the same
    tokens give the same keyword set. *)
Theorem extract_keywords_order_irrelevant (rt rt' : Runtime) (text text' : str) :
  (∀ token, In token (nlp rt (str_lower rt text))
            ↔ In token (nlp rt' (str_lower rt' text'))) ->
  extract_keywords rt text = extract_keywords rt' text'.
Proof.
  intros H. apply set_eq. intros k. rewrite !extract_keywords_elem.
  split; intros (token & Hin & Hrule); exists token; (split; [apply H, Hin | exact Hrule]).
Qed.

Lemma extract_keywords_order_irrelevant_witness :
  extract_keywords (Fixture.runtime []) (lit "python cloud")
  = extract_keywords (Fixture.runtime []) (lit "Cloud python cloud").
Proof.
  apply extract_keywords_order_irrelevant.
  intros token. vm_compute. tauto.
Defined.

(** X7. When the tagging of a text is the tagging of two texts one after
    the other, its keywords are the keywords of the two texts together. *)
Theorem extract_keywords_union (rt : Runtime) (text1 text2 text : str) :
  nlp rt (str_lower rt text)
  = nlp rt (str_lower rt text1) ++ nlp rt (str_lower rt text2) ->
  extract_keywords rt text = extract_keywords rt text1 ∪ extract_keywords rt text2.
Proof.
  intros H. apply set_eq. intros k.
  rewrite elem_of_union, !extract_keywords_elem, H.
  split.
  - intros (token & Hin & Hrule). apply List.in_app_or in Hin as [Hin|Hin]; eauto.
  - intros [(token & Hin & Hrule)|(token & Hin & Hrule)];
      exists token; (split; [apply List.in_or_app; auto | exact Hrule]).
Qed.

Lemma extract_keywords_union_witness :
  extract_keywords (Fixture.runtime []) (lit "python developer for cloud infrastructure")
  = extract_keywords (Fixture.runtime []) (lit "python developer")
    ∪ extract_keywords (Fixture.runtime []) (lit "for cloud infrastructure").
Proof.
  apply extract_keywords_union. vm_compute. reflexivity.
Defined.

Lemma extract_step_size (keywords : gset str) (token : Token) :
  (size (extract_step keywords token) <= S (size keywords))%nat.
Proof.
  unfold extract_step.
  destruct (_ && _ && _)%bool; [|lia].
  destruct (bool_decide _); [|lia].
  rewrite size_union_alt.
  pose proof (subseteq_size ({[token_text token]} ∖ keywords) {[token_text token]}) as H.
  rewrite size_singleton in H.
  assert (({[token_text token]} ∖ keywords : gset str) ⊆ {[token_text token]}).
  { intros x Hx. apply elem_of_difference in Hx. tauto. }
  specialize (H ltac:(assumption)). lia.
Qed.

Lemma extract_loop_size (doc : list Token) (keywords : gset str) :
  (size (fold_left extract_step doc keywords) <= size keywords + length doc)%nat.
Proof.
  revert keywords. induction doc as [|token doc IH]; intros keywords; simpl; [lia|].
  etransitivity; [apply IH|]. pose proof (extract_step_size keywords token). lia.
Qed.

(** X8. There are never more keywords than tokens; a tagging without
    tokens gives no keyword. *)
Theorem extract_keywords_size (rt : Runtime) (text : str) :
  (size (extract_keywords rt text) <= length (nlp rt (str_lower rt text)))%nat
  ∧ (nlp rt (str_lower rt text) = [] -> extract_keywords rt text = ∅).
Proof.
  unfold extract_keywords. split.
  - pose proof (extract_loop_size (nlp rt (str_lower rt text)) ∅) as H.
    rewrite size_empty in H. exact H.
  - intros ->. reflexivity.
Qed.

Lemma extract_keywords_size_witness :
  extract_keywords (Fixture.runtime []) [] = ∅.
Proof.
  apply (extract_keywords_size (Fixture.runtime []) []). reflexivity.
Defined.

(** ** The exact-match score: its extreme values and its counts *)







Lemma matched_missing_sizes (res_keys jd_keys : gset str) :
  (size (res_keys ∩ jd_keys) + size (jd_keys ∖ res_keys))%nat = size jd_keys.
Proof.
  rewrite <- size_union.
  - f_equal. apply set_eq. intros k.
    rewrite elem_of_union, elem_of_intersection, elem_of_difference.
    destruct (decide (k ∈ res_keys)); tauto.
  - intros k H1 H2. apply elem_of_intersection in H1. apply elem_of_difference in H2. tauto.
Qed.

(** X11. In every report the numbers of matched and of missing keywords
    add up to the number of job keywords. *)
Theorem report_counts (rt : Runtime) (resume_text jd_text : str) :
  returns (calculate_locals rt resume_text jd_text) (fun l =>
  returns (calculate_scores rt resume_text jd_text) (fun report =>
    (size (matched report) + size (missing report))%nat = size (jd_keys l))).
Proof.
  eapply returns_impl; [|apply calculate_locals_spec].
  intros l (_ & _ & _ & _ & _ & _ & _ & _ & Hrun). rewrite Hrun. simpl.
  apply matched_missing_sizes.
Qed.

(** X12. Exchanging the resume and the job description keeps the matched
    set and makes the missing set the resume keywords that the job
    description lacks. *)
Theorem swapped_texts (rt : Runtime) (resume_text jd_text : str) :
  returns (calculate_locals rt resume_text jd_text) (fun l =>
  returns (calculate_locals rt jd_text resume_text) (fun swapped =>
    matched (report_of swapped) = matched (report_of l)
    ∧ missing (report_of swapped) = res_keys l ∖ jd_keys l)).
Proof.
  eapply returns_impl; [|apply calculate_locals_spec].
  intros l (Hcr & Hcj & Hr & Hj & _).
  eapply returns_impl; [|apply calculate_locals_spec].
  intros s (Hcr' & Hcj' & Hr' & Hj' & _).
  assert (Er : res_keys s = jd_keys l) by congruence.
  assert (Ej : jd_keys s = res_keys l) by congruence.
  simpl. rewrite Er, Ej. split; [|reflexivity].
  apply set_eq. intros k. rewrite !elem_of_intersection. tauto.
Qed.

Lemma clean_text_twice (t : str) : clean_text (clean_text t) = clean_text t.
Proof. apply tidy_fixed, clean_text_tidy. Qed.

(** X13. Cleaning the two texts before the call changes nothing: the
    report of the cleaned texts is the report of the texts. *)
Theorem calculate_scores_of_cleaned (rt : Runtime) (resume_text jd_text : str) :
  calculate_scores rt (clean_text resume_text) (clean_text jd_text)
  = calculate_scores rt resume_text jd_text.
Proof.
  unfold calculate_scores, calculate_locals. rewrite !clean_text_twice. reflexivity.
Qed.



(** ** Rounding and the final score *)

Lemma round_half_even_cases (x : Q) :
  ((x - inject_Z (Qfloor x) < 1 # 2)%Q ∧ round_half_even x = Qfloor x)
  ∨ ((1 # 2 < x - inject_Z (Qfloor x))%Q ∧ round_half_even x = Qfloor x + 1)
  ∨ ((x - inject_Z (Qfloor x) == 1 # 2)%Q
     ∧ round_half_even x = if Z.even (Qfloor x) then Qfloor x else Qfloor x + 1).
Proof.
  unfold round_half_even.
  destruct (Qcompare (x - inject_Z (Qfloor x)) (1 # 2)) eqn:E.
  - right. right. split; [apply Qeq_alt; exact E | reflexivity].
  - left. split; [apply Qlt_alt; exact E | reflexivity].
  - right. left. split; [apply Qgt_alt; exact E | reflexivity].
Qed.

Lemma floor_bounds (x : Q) :
  (inject_Z (Qfloor x) <= x ∧ x < inject_Z (Qfloor x) + 1)%Q.
Proof.
  split; [apply Qfloor_le|].
  pose proof (Qlt_floor x) as H. rewrite inject_Z_plus in H. exact H.
Qed.


Lemma round_as_tenths (x : Q) :
  (round x 1 == inject_Z (round_half_even (x * 10)) * (1 # 10))%Q.
Proof. unfold round. change (inject_Z (10 ^ Z.of_nat 1)) with 10%Q. field. Qed.




Lemma round_error (x : Q) : (- (1 # 20) <= round x 1 - x <= 1 # 20)%Q.
Proof.
  rewrite round_as_tenths.
  destruct (floor_bounds (x * 10)) as [H0 H1].
  destruct (round_half_even_cases (x * 10)) as [[H ->]|[[H ->]|[H ->]]];
    [| |destruct (Z.even _)];
    rewrite ?inject_Z_plus; change (inject_Z 1) with 1%Q;
    set (q := inject_Z (Qfloor (x * 10))) in *; clearbody q; split; lra.
Qed.








(** ** Reading the upload: the text that is returned *)

Lemma pages_loop_all_return (texts : list (option str)) (text : str) :
  pages_loop (List.map Return texts) text
  = Return (text ++ List.concat (List.map or_empty texts)).
Proof.
  revert text. induction texts as [|x texts IH]; intros text; simpl.
  - rewrite List.app_nil_r. reflexivity.
  - rewrite IH, <- List.app_assoc. reflexivity.
Qed.

Lemma para_texts_all_return (texts : list str) :
  para_texts (List.map Return texts) = Return texts.
Proof.
  induction texts as [|t texts IH]; simpl; [reflexivity|]. rewrite IH. reflexivity.
Qed.

Lemma or_empty_nil (x : option str) : or_empty x = [] ↔ x = None ∨ x = Some [].
Proof.
  destruct x as [[|c s]|]; simpl; split; auto; try discriminate.
  intros [H|H]; discriminate H.
Qed.

Lemma concat_nil_iff (parts : list str) :
  List.concat parts = [] ↔ Forall (fun p => p = []) parts.
Proof.
  induction parts as [|p parts IH]; simpl.
  - split; [constructor | reflexivity].
  - split.
    + intros H. apply List.app_eq_nil in H as [-> H]. constructor; [reflexivity | apply IH, H].
    + intros H. inversion H as [|? ? Hp Hr]; subst. simpl. apply IH, Hr.
Qed.

(** X18. For a PDF whose parser and pages all return, [read_file] returns
    the page texts one after the other in page order, a page without text
    counting as the empty string; the text is empty exactly when every
    page has no text or the empty text. *)
Theorem read_file_pdf_text (ps : Parsers) (f : UploadedFile) (texts : list (option str)) :
  type f = lit "application/pdf" ->
  PdfReader ps f = Return (List.map Return texts) ->
  read_file ps f = Return (Some (List.concat (List.map or_empty texts)))
  ∧ (read_file ps f = Return (Some [])
     ↔ Forall (fun x => x = None ∨ x = Some []) texts).
Proof.
  intros Ht Hp.
  assert (E : read_file ps f = Return (Some (List.concat (List.map or_empty texts)))).
  { unfold read_file, str_eqb. rewrite bool_decide_eq_true_2 by exact Ht.
    rewrite Hp. simpl. rewrite pages_loop_all_return. reflexivity. }
  split; [exact E|]. rewrite E. split.
  - intros H. injection H as H. apply concat_nil_iff in H.
    rewrite List.Forall_map in H. eapply List.Forall_impl; [|exact H].
    intros x Hx. apply or_empty_nil, Hx.
  - intros H. do 2 f_equal. apply concat_nil_iff. rewrite List.Forall_map.
    eapply List.Forall_impl; [|exact H]. intros x Hx. apply or_empty_nil, Hx.
Qed.

Lemma read_file_pdf_text_witness :
  read_file Fixture.parsers Fixture.blank_pdf = Return (Some []).
Proof.
  exact (proj1 (read_file_pdf_text Fixture.parsers Fixture.blank_pdf [None; Some []]
                  eq_refl eq_refl)).
Defined.

Lemma join_nil_iff (sep : str) (parts : list str) :
  sep ≠ [] -> (join sep parts = [] ↔ parts = [] ∨ parts = [[]]).
Proof.
  intros Hsep. destruct parts as [|p [|q parts]]; simpl.
  - split; auto.
  - split; [intros ->; auto | intros [H|H]; [discriminate H | congruence]].
  - split.
    + intros H. apply List.app_eq_nil in H as [_ H].
      apply List.app_eq_nil in H as [H _]. contradiction.
    + intros [H|H]; discriminate H.
Qed.

(** X19. For a word-processing document whose parser and paragraphs all
    return, [read_file] returns the paragraph texts joined by line
    breaks; the text is empty exactly when the document has no paragraph
    or a single empty one. *)
Theorem read_file_docx_text (ps : Parsers) (f : UploadedFile) (texts : list str) :
  type f ≠ lit "application/pdf" ->
  contains (lit "wordprocessingml") (type f) = true ->
  Document ps f = Return (List.map Return texts) ->
  read_file ps f = Return (Some (join [NEWLINE] texts))
  ∧ (read_file ps f = Return (Some []) ↔ texts = [] ∨ texts = [[]]).
Proof.
  intros Ht Hc Hd.
  assert (E : read_file ps f = Return (Some (join [NEWLINE] texts))).
  { unfold read_file, str_eqb. rewrite bool_decide_eq_false_2 by exact Ht.
    rewrite Hc, Hd. simpl. rewrite para_texts_all_return. reflexivity. }
  split; [exact E|]. rewrite E. rewrite <- (join_nil_iff [NEWLINE]) by discriminate.
  split; [intros H; injection H as H; exact H | intros ->; reflexivity].
Qed.

Lemma read_file_docx_text_witness :
  read_file Fixture.parsers Fixture.plain_docx
  = Return (Some (lit "Python developer" ++ [NEWLINE] ++ lit "cloud")).
Proof.
  exact (proj1 (read_file_docx_text Fixture.parsers Fixture.plain_docx
                  [lit "Python developer"; lit "cloud"]
                  ltac:(discriminate) eq_refl eq_refl)).
Defined.

(** ** The keyword score and the keywords of the resume *)




(** * The pipeline on binary64 floats *)

(** ** The scores *)

Lemma binary64_exact_match_score_eq (res_keys jd_keys : gset str) :
  Binary64.exact_match_score res_keys jd_keys
  = Return (if len jd_keys =? 0 then Binary64.of_Z 0
            else Binary64.mul
                   (Binary64.of_Q (inject_Z (len (res_keys ∩ jd_keys)) / inject_Z (len jd_keys)))
                   (Binary64.of_Z 100)).
Proof.
  unfold Binary64.exact_match_score, Binary64.true_div.
  destruct (len jd_keys =? 0) eqn:E; reflexivity.
Qed.

Lemma binary64_calculate_scores_eq (rt : Runtime) (resume_text jd_text : str) :
  let res_keys := extract_keywords rt (clean_text resume_text) in
  let jd_keys := extract_keywords rt (clean_text jd_text) in
  let keyword_score :=
    if len jd_keys =? 0 then Binary64.of_Z 0
    else Binary64.mul
           (Binary64.of_Q (inject_Z (len (res_keys ∩ jd_keys)) / inject_Z (len jd_keys)))
           (Binary64.of_Z 100) in
  let semantic_score :=
    Binary64.mul
      (Binary64.of_Q (cos_sim rt (encode rt (clean_text resume_text))
                        (encode rt (clean_text jd_text))))
      (Binary64.of_Z 100) in
  Binary64.calculate_scores rt resume_text jd_text
  = Return {| Binary64.final :=
                Binary64.round1 (Binary64.weighted_score keyword_score semantic_score);
              Binary64.keyword := Binary64.round1 keyword_score;
              Binary64.semantic := Binary64.round1 semantic_score;
              Binary64.missing := jd_keys ∖ res_keys;
              Binary64.matched := res_keys ∩ jd_keys |}.
Proof.
  intros res_keys jd_keys keyword_score semantic_score.
  unfold Binary64.calculate_scores.
  rewrite binary64_exact_match_score_eq. reflexivity.
Qed.

(** The integer that [round] chooses is a nearest one, and the even one of
    the two when both are as near. *)
Lemma round_half_even_nearest (x : Q) :
  (- (1 # 2) <= inject_Z (round_half_even x) - x <= 1 # 2)%Q
  ∧ ((inject_Z (round_half_even x) - x == 1 # 2)%Q
     ∨ (x - inject_Z (round_half_even x) == 1 # 2)%Q ->
     Z.even (round_half_even x) = true).
Proof.
  destruct (floor_bounds x) as [H0 H1].
  destruct (round_half_even_cases x) as [[H ->]|[[H ->]|[H ->]]].
  - set (q := inject_Z (Qfloor x)) in *. clearbody q.
    split; [split; lra|]. intros [E|E]; exfalso; lra.
  - rewrite inject_Z_plus. change (inject_Z 1) with 1%Q.
    set (q := inject_Z (Qfloor x)) in *. clearbody q.
    split; [split; lra|]. intros [E|E]; exfalso; lra.
  - destruct (Z.even (Qfloor x)) eqn:Ev.
    + set (q := inject_Z (Qfloor x)) in *. clearbody q.
      split; [split; lra|]. intros _. exact Ev.
    + split.
      * rewrite inject_Z_plus. change (inject_Z 1) with 1%Q.
        set (q := inject_Z (Qfloor x)) in *. clearbody q. split; lra.
      * intros _. change (Qfloor x + 1) with (Z.succ (Qfloor x)).
        rewrite Z.even_succ, <- Z.negb_even, Ev. reflexivity.
Qed.

Lemma round1_finite (s : bool) (m : positive) (e : Z) :
  Binary64.round1 (S754_finite s m e)
  = if round_half_even (Binary64.to_Q (S754_finite s m e) * 10) =? 0
    then S754_zero s
    else Binary64.of_Q (round_half_even (Binary64.to_Q (S754_finite s m e) * 10) # 10).
Proof.
  unfold Binary64.round1.
  destruct (round_half_even (Binary64.to_Q (S754_finite s m e) * 10)); reflexivity.
Qed.

(** C1. Every run returns a report whose final score is [round(_, 1)] of
    the float sum [keyword_score * 0.6 + semantic_score * 0.4], where
    [keyword_score] is the float product of the ratio and 100 and
    [semantic_score] the float product of the similarity and 100, neither
    of them rounded to a decimal; the rounded values are the two other
    fields of the report. The rounding takes a finite sum to the float of
    the tenth nearest to its value, the even tenth on a tie. For a
    keyword score of 80.0 and a semantic score of 50.0 the final score is
    68.0. *)
Theorem final_score_weighting (rt : Runtime) (resume_text jd_text : str) :
  let res_keys := extract_keywords rt (clean_text resume_text) in
  let jd_keys := extract_keywords rt (clean_text jd_text) in
  let keyword_score :=
    if len jd_keys =? 0 then Binary64.of_Z 0
    else Binary64.mul
           (Binary64.of_Q (inject_Z (len (res_keys ∩ jd_keys)) / inject_Z (len jd_keys)))
           (Binary64.of_Z 100) in
  let semantic_score :=
    Binary64.mul
      (Binary64.of_Q (cos_sim rt (encode rt (clean_text resume_text))
                        (encode rt (clean_text jd_text))))
      (Binary64.of_Z 100) in
  let sum :=
    Binary64.add (Binary64.mul keyword_score (Binary64.of_Q (6 # 10)))
                 (Binary64.mul semantic_score (Binary64.of_Q (4 # 10))) in
  returns (Binary64.calculate_scores rt resume_text jd_text) (fun report =>
    Binary64.final report = Binary64.round1 sum
    ∧ Binary64.keyword report = Binary64.round1 keyword_score
    ∧ Binary64.semantic report = Binary64.round1 semantic_score
    ∧ (∀ s m e, sum = S754_finite s m e ->
       ∃ tenths : Z,
         (- (1 # 2) <= inject_Z tenths - Binary64.to_Q sum * 10 <= 1 # 2)%Q
         ∧ ((inject_Z tenths - Binary64.to_Q sum * 10 == 1 # 2)%Q
            ∨ (Binary64.to_Q sum * 10 - inject_Z tenths == 1 # 2)%Q ->
            Z.even tenths = true)
         ∧ Binary64.final report
           = if tenths =? 0 then S754_zero s else Binary64.of_Q (tenths # 10))
    ∧ (keyword_score = Binary64.of_Z 80 -> semantic_score = Binary64.of_Z 50 ->
       Binary64.final report = Binary64.of_Z 68)).
Proof.
  intros res_keys jd_keys keyword_score semantic_score sum.
  rewrite binary64_calculate_scores_eq.
  fold res_keys jd_keys keyword_score semantic_score. simpl.
  change (Binary64.weighted_score keyword_score semantic_score) with sum.
  split; [reflexivity|]. split; [reflexivity|]. split; [reflexivity|]. split.
  - intros s m e E. rewrite E.
    exists (round_half_even (Binary64.to_Q (S754_finite s m e) * 10)).
    destruct (round_half_even_nearest (Binary64.to_Q (S754_finite s m e) * 10)) as [Hn He].
    split; [exact Hn|]. split; [exact He|]. apply round1_finite.
  - intros Hk Hs. unfold sum. rewrite Hk, Hs. vm_compute. reflexivity.
Qed.

Lemma final_score_weighting_witness :
  returns (Binary64.calculate_scores (Fixture.runtime Fixture.table_a)
             Fixture.resume_a Fixture.jd_a) (fun report =>
    Binary64.final report = Binary64.of_Z 68)
  ∧ returns (Binary64.calculate_scores (Fixture.runtime Fixture.table_c)
               Fixture.resume_c Fixture.jd_c) (fun report =>
      Binary64.final report = Binary64.of_Q (171 # 10)
      ∧ Binary64.keyword report = Binary64.of_Q (286 # 10)
      ∧ ∃ tenths : Z,
          Binary64.final report
          = if tenths =? 0 then S754_zero false else Binary64.of_Q (tenths # 10)).
Proof.
  split.
  - pose proof (final_score_weighting (Fixture.runtime Fixture.table_a)
                  Fixture.resume_a Fixture.jd_a) as H.
    cbv zeta in H.
    destruct (Binary64.calculate_scores (Fixture.runtime Fixture.table_a)
                Fixture.resume_a Fixture.jd_a) as [report|e]; [|exact H].
    destruct H as (_ & _ & _ & _ & H). apply H; vm_compute; reflexivity.
  - pose proof (final_score_weighting (Fixture.runtime Fixture.table_c)
                  Fixture.resume_c Fixture.jd_c) as H.
    cbv zeta in H.
    destruct (Binary64.calculate_scores (Fixture.runtime Fixture.table_c)
                Fixture.resume_c Fixture.jd_c) as [report|e]; [|exact H].
    destruct H as (Hf & Hk & _ & Hr & _). simpl.
    specialize (Hr false _ _ ltac:(vm_compute; reflexivity)).
    destruct Hr as (tenths & _ & _ & Ht).
    split; [rewrite Hf; vm_compute; reflexivity|].
    split; [rewrite Hk; vm_compute; reflexivity|].
    exists tenths. exact Ht.
Defined.

(** The run of the weighting check, the effect of rounding the two scores
    before the sum, and the run below zero, on floats: 80.0 and 50.0 give
    68.0; two of seven keywords and a similarity of 0 give 17.1, where the
    rounded keyword score 28.6 would give 17.2; a cosine of -0.05 gives
    -2.0. *)
Example binary64_weighting :
  Binary64.round1 (Binary64.weighted_score (Binary64.of_Z 80) (Binary64.of_Z 50))
  = Binary64.of_Z 68.
Proof. vm_compute. reflexivity. Qed.

Example binary64_unrounded_inputs :
  returns (Binary64.calculate_scores (Fixture.runtime Fixture.table_c)
             Fixture.resume_c Fixture.jd_c) (fun report =>
    Binary64.final report = Binary64.of_Q (171 # 10)
    ∧ Binary64.keyword report = Binary64.of_Q (286 # 10)
    ∧ Binary64.semantic report = S754_zero false
    ∧ Binary64.round1 (Binary64.weighted_score (Binary64.keyword report)
                         (Binary64.semantic report))
      = Binary64.of_Q (172 # 10)).
Proof. vm_compute. repeat split. Qed.

Example binary64_below_zero :
  returns (Binary64.calculate_scores (Fixture.runtime Fixture.table_b)
             Fixture.resume_b Fixture.jd_b) (fun report =>
    Binary64.final report = Binary64.of_Z (-2)
    ∧ Binary64.keyword report = Binary64.of_Z 0
    ∧ Binary64.semantic report = Binary64.of_Z (-5)
    ∧ Binary64.leb (Binary64.of_Z 0) (Binary64.final report) = false).
Proof. vm_compute. repeat split. Qed.

(** ** The keyword score *)

(** C2, as claimed, fails on floats. Eleven of twenty job keywords: the
    quotient is the float next above 0.55 and its product with 100 is
    55.00000000000001, not 55.
    Twenty-three of eighty: the product is 28.749999999999996, below
    28.75, and the report says 28.7 where 100 * 23 / 80 rounds to 28.8. *)
Lemma keyword_score_inexact :
  (len (Sample.resume_11 ∩ Sample.jd_20) = 11 ∧ len Sample.jd_20 = 20
   ∧ returns (Binary64.exact_match_score Sample.resume_11 Sample.jd_20) (fun score =>
       score = S754_finite false 7740561859543041 (-47)
       ∧ (100 * 11 / 20 < Binary64.to_Q score)%Q
       ∧ score ≠ Binary64.of_Z 55
       ∧ score ≠ Binary64.of_Q (100 * 11 / 20)))
  ∧ (len (Sample.resume_23 ∩ Sample.jd_80) = 23 ∧ len Sample.jd_80 = 80
     ∧ returns (Binary64.exact_match_score Sample.resume_23 Sample.jd_80) (fun score =>
         (Binary64.to_Q score < 100 * 23 / 80)%Q
         ∧ Binary64.round1 score = Binary64.of_Q (287 # 10)
         ∧ round (100 * 23 / 80) 1 = (inject_Z 288 / inject_Z 10)%Q
         ∧ Binary64.round1 score ≠ Binary64.of_Q (288 # 10))).
Proof.
  split.
  - split; [vm_compute; reflexivity|]. split; [vm_compute; reflexivity|].
    rewrite binary64_exact_match_score_eq.
    assert (E : (if len Sample.jd_20 =? 0 then Binary64.of_Z 0
                 else Binary64.mul
                        (Binary64.of_Q (inject_Z (len (Sample.resume_11 ∩ Sample.jd_20))
                                        / inject_Z (len Sample.jd_20)))
                        (Binary64.of_Z 100))
                = S754_finite false 7740561859543041 (-47)) by (vm_compute; reflexivity).
    rewrite E. simpl.
    split; [reflexivity|]. split; [vm_compute; reflexivity|].
    split; vm_compute; discriminate.
  - split; [vm_compute; reflexivity|]. split; [vm_compute; reflexivity|].
    rewrite binary64_exact_match_score_eq.
    assert (E : (if len Sample.jd_80 =? 0 then Binary64.of_Z 0
                 else Binary64.mul
                        (Binary64.of_Q (inject_Z (len (Sample.resume_23 ∩ Sample.jd_80))
                                        / inject_Z (len Sample.jd_80)))
                        (Binary64.of_Z 100))
                = S754_finite false 8092405580431359 (-48)) by (vm_compute; reflexivity).
    rewrite E. simpl.
    split; [vm_compute; reflexivity|]. split; [vm_compute; reflexivity|].
    split; [vm_compute; reflexivity|]. vm_compute; discriminate.
Qed.

Lemma score_error_table :
  List.forallb (score_error_within (1 # 70368744177664)) (counts_upto 100) = true.
Proof. vm_compute. reflexivity. Qed.

Lemma counts_upto_in (n m t : nat) :
  (1 <= t)%nat -> (t <= n)%nat -> (m <= t)%nat -> In (m, t) (counts_upto n).
Proof.
  intros H1 Hn Hm. unfold counts_upto. apply List.in_flat_map. exists t. split.
  - apply List.in_seq. lia.
  - apply (List.in_map (fun m => (m, t))). apply List.in_seq. lia.
Qed.

Lemma size_intersection_le (a b : gset str) : (size (a ∩ b) <= size b)%nat.
Proof. apply subseteq_size. intros k. rewrite elem_of_intersection. tauto. Qed.

(** C2, amended. Without job keywords the keyword score is 0.0, returned
    and not raised, and nothing is missing. Otherwise the score is the
    float product by 100 of the float quotient of the number of common
    keywords by the number of job keywords: in exact arithmetic this is
    100 times the one over the other, and for up to 100 job keywords the
    float is within 2^-46 of that value. The report of every run has this
    score, rounded, and the missing set. *)
Theorem keyword_score_policy (resume_keywords jd_keywords : gset str) :
  (jd_keywords = ∅ ->
   Binary64.exact_match_score resume_keywords jd_keywords = Return (Binary64.of_Z 0)
   ∧ jd_keywords ∖ resume_keywords = ∅)
  ∧ (jd_keywords ≠ ∅ ->
     Binary64.exact_match_score resume_keywords jd_keywords
     = Return (Binary64.mul
                 (Binary64.of_Q
                    (inject_Z (Z.of_nat (size (resume_keywords ∩ jd_keywords)))
                     / inject_Z (Z.of_nat (size jd_keywords))))
                 (Binary64.of_Z 100)))
  ∧ returns (exact_match_score resume_keywords jd_keywords) (fun score =>
      score == spec_keyword_score resume_keywords jd_keywords)%Q
  ∧ ((size jd_keywords <= 100)%nat ->
     returns (Binary64.exact_match_score resume_keywords jd_keywords) (fun score =>
       (Qabs (Binary64.to_Q score - spec_keyword_score resume_keywords jd_keywords)
        <= 1 # 2 ^ 46)%Q))
  ∧ (∀ rt resume_text jd_text,
       let res_keys := extract_keywords rt (clean_text resume_text) in
       let jd_keys := extract_keywords rt (clean_text jd_text) in
       returns (Binary64.exact_match_score res_keys jd_keys) (fun keyword_score =>
       returns (Binary64.calculate_scores rt resume_text jd_text) (fun report =>
         Binary64.keyword report = Binary64.round1 keyword_score
         ∧ Binary64.missing report = jd_keys ∖ res_keys
         ∧ (jd_keys = ∅ ->
            Binary64.keyword report = Binary64.of_Z 0
            ∧ Binary64.missing report = ∅)))).
Proof.
  assert (Hempty : ∀ a : gset str, (∅ : gset str) ∖ a = ∅).
  { intros a. apply set_eq. intros k. rewrite elem_of_difference, elem_of_empty. tauto. }
  assert (Hexact : returns (exact_match_score resume_keywords jd_keywords) (fun score =>
                     score == spec_keyword_score resume_keywords jd_keywords)%Q).
  { unfold spec_keyword_score.
    destruct (bool_decide (size jd_keywords = 0%nat)) eqn:E;
      [apply bool_decide_eq_true in E | apply bool_decide_eq_false in E].
    - assert (jd_keywords = ∅) as -> by (apply len_zero; unfold len; lia).
      simpl. reflexivity.
    - assert (Hne : jd_keywords ≠ ∅) by (intros ->; apply E; apply size_empty).
      eapply returns_impl; [|apply (exact_match_score_eq _ _ Hne)].
      intros score Hs. simpl in Hs. rewrite Hs.
      assert (Ht : len jd_keywords ≠ 0) by (rewrite len_zero; exact Hne).
      unfold len in *. destruct (Z.of_nat (size jd_keywords)) as [|p|p] eqn:E'; try lia.
      unfold Qeq, Qdiv, Qmult, Qinv, inject_Z. simpl. lia. }
  split; [|split; [|split; [exact Hexact | split]]].
  - intros ->. split; [reflexivity | apply Hempty].
  - intros Hne. rewrite binary64_exact_match_score_eq.
    assert (Ht : len jd_keywords ≠ 0) by (rewrite len_zero; exact Hne).
    apply Z.eqb_neq in Ht. rewrite Ht. reflexivity.
  - intros Hsize. rewrite binary64_exact_match_score_eq. simpl.
    unfold spec_keyword_score, len.
    destruct (size jd_keywords) as [|t] eqn:Et.
    + simpl. vm_compute. discriminate.
    + rewrite bool_decide_eq_false_2 by discriminate.
      replace (Z.of_nat (S t) =? 0) with false by (symmetry; apply Z.eqb_neq; lia).
      pose proof score_error_table as Htab.
      rewrite List.forallb_forall in Htab.
      specialize (Htab (size (resume_keywords ∩ jd_keywords), S t)).
      unfold score_error_within, score_error, score_of_counts in Htab. simpl fst in Htab.
      simpl snd in Htab. apply Qle_bool_iff. apply Htab.
      apply counts_upto_in; [lia | lia |].
      rewrite <- Et. apply size_intersection_le.
  - intros rt resume_text jd_text res_keys jd_keys.
    rewrite binary64_exact_match_score_eq, binary64_calculate_scores_eq.
    fold res_keys jd_keys. simpl.
    split; [reflexivity|]. split; [reflexivity|].
    intros E. rewrite E. split; [reflexivity | apply Hempty].
Qed.

Lemma keyword_score_policy_witness :
  (Binary64.exact_match_score {[ lit "python" ]} ∅ = Return (Binary64.of_Z 0)
   ∧ (∅ : gset str) ∖ {[ lit "python" ]} = ∅)
  ∧ Binary64.exact_match_score {[ lit "python" ]} ({[ lit "python" ]} ∪ {[ lit "docker" ]})
    = Return (Binary64.mul
                (Binary64.of_Q
                   (inject_Z (Z.of_nat (size (({[ lit "python" ]} : gset str)
                                              ∩ ({[ lit "python" ]} ∪ {[ lit "docker" ]}))))
                    / inject_Z (Z.of_nat (size (({[ lit "python" ]} : gset str)
                                                ∪ {[ lit "docker" ]})))))
                (Binary64.of_Z 100))
  ∧ returns (Binary64.exact_match_score Sample.resume_11 Sample.jd_20) (fun score =>
      (Qabs (Binary64.to_Q score - spec_keyword_score Sample.resume_11 Sample.jd_20)
       <= 1 # 2 ^ 46)%Q).
Proof.
  split; [|split].
  - exact (proj1 (keyword_score_policy {[ lit "python" ]} ∅) eq_refl).
  - exact (proj1 (proj2 (keyword_score_policy {[ lit "python" ]}
                           ({[ lit "python" ]} ∪ {[ lit "docker" ]})))
             (add_nonempty _ _)).
  - apply (proj1 (proj2 (proj2 (proj2 (keyword_score_policy Sample.resume_11 Sample.jd_20))))).
    apply Nat.leb_le. vm_compute. reflexivity.
Defined.

(** ** The handler: what it shows and when *)

Lemma read_file_returns (ps : Parsers) (f : UploadedFile) :
  ∃ v, read_file ps f = Return v.
Proof. unfold read_file. apply try_except_returns. Qed.

Lemma calculate_scores_returns (rt : Runtime) (resume_text jd_text : str) :
  ∃ results, Binary64.calculate_scores rt resume_text jd_text = Return results.
Proof. eexists. apply binary64_calculate_scores_eq. Qed.

Lemma truthy_true (s : str) : truthy s = true ↔ s ≠ [].
Proof. destruct s; simpl; split; congruence. Qed.

(** The two ends of the display. *)
Lemma display_effects_cases (results : Binary64.Report) :
  (progress_accepts (Binary64.div (Binary64.final results) (Binary64.of_Z 100)) = true
   ∧ display_effects results
     = List.map Widget
         ([Divider;
           Header (Binary64.final results);
           Progress (Binary64.div (Binary64.final results) (Binary64.of_Z 100));
           Info (Binary64.keyword results); Caption;
           Success (Binary64.semantic results); Caption;
           Warning (len (Binary64.missing results)); Caption;
           Subheader; Write_hint]
          ++ match missing_list results with
             | _ :: _ => [Markdown (join [SPACE] (List.map span (missing_list results)))]
             | [] => [Write_no_missing]
             end))
  ∨ (progress_accepts (Binary64.div (Binary64.final results) (Binary64.of_Z 100)) = false
     ∧ display_effects results
       = [Widget Divider; Widget (Header (Binary64.final results));
          Uncaught "StreamlitAPIException"%string]).
Proof.
  unfold display_effects, display.
  destruct (progress_accepts _) eqn:E; [left | right]; split; try reflexivity.
  cbn [fst snd]. rewrite List.app_nil_r. reflexivity.
Qed.

(** The three outcomes of the handler. *)
Lemma on_analyze_cases (rt : Runtime) (ps : Parsers) (jd_input : str)
    (uploaded_file : option UploadedFile) :
  ((jd_input = [] ∨ uploaded_file = None)
   ∧ on_analyze rt ps jd_input uploaded_file
     = [St_error "Please provide both a Job Description and a Resume file."])
  ∨ (jd_input ≠ [] ∧ ∃ file, uploaded_file = Some file
     ∧ (read_file ps file = Return None ∨ read_file ps file = Return (Some []))
     ∧ on_analyze rt ps jd_input uploaded_file = [])
  ∨ (jd_input ≠ [] ∧ ∃ file text results, uploaded_file = Some file
     ∧ read_file ps file = Return (Some text) ∧ text ≠ []
     ∧ Binary64.calculate_scores rt text jd_input = Return results
     ∧ on_analyze rt ps jd_input uploaded_file
       = Invoke_calculate_scores text jd_input :: display_effects results).
Proof.
  unfold on_analyze.
  destruct jd_input as [|c jd]; [left; split; [auto | reflexivity]|].
  destruct uploaded_file as [file|]; [|left; split; [auto | reflexivity]].
  right. cbn [truthy].
  destruct (read_file_returns ps file) as [[text|] Hr]; rewrite Hr.
  - destruct text as [|x text].
    + left. split; [discriminate|]. exists file. auto.
    + right. split; [discriminate|].
      destruct (calculate_scores_returns rt (x :: text) (c :: jd)) as [results Hs].
      exists file, (x :: text), results. cbn [truthy_opt truthy default].
      split; [reflexivity|]. split; [exact Hr|]. split; [discriminate|].
      split; [exact Hs|]. unfold id. rewrite Hs. reflexivity.
  - left. split; [discriminate|]. exists file. auto.
Qed.

Lemma not_in_widgets (e : Exception) (ws : list widget) : ¬ In (Uncaught e) (List.map Widget ws).
Proof. intros H. apply List.in_map_iff in H as (w & Hw & _). discriminate Hw. Qed.

(** X20. An exception leaves the handler from one place only, the call of
    [st.progress]: it does so exactly when the pipeline has run and the
    final score over 100 is not a float from 0.0 to 1.0. The exception is
    then StreamlitAPIException, and the page stops after the divider and
    the header. Neither [read_file] nor [calculate_scores] raises. *)
Theorem on_analyze_raises_at_progress (rt : Runtime) (ps : Parsers) (jd_input : str)
    (uploaded_file : option UploadedFile) (e : Exception) :
  In (Uncaught e) (on_analyze rt ps jd_input uploaded_file)
  ↔ e = "StreamlitAPIException"%string
    ∧ ∃ file text results,
        jd_input ≠ [] ∧ uploaded_file = Some file
        ∧ read_file ps file = Return (Some text) ∧ text ≠ []
        ∧ Binary64.calculate_scores rt text jd_input = Return results
        ∧ progress_accepts (Binary64.div (Binary64.final results) (Binary64.of_Z 100)) = false
        ∧ on_analyze rt ps jd_input uploaded_file
          = [Invoke_calculate_scores text jd_input;
             Widget Divider; Widget (Header (Binary64.final results));
             Uncaught "StreamlitAPIException"%string].
Proof.
  destruct (on_analyze_cases rt ps jd_input uploaded_file)
    as [[Hin E]|[(Hjd & file & Hu & Hr & E)|(Hjd & file & text & results & Hu & Hr & Ht & Hs & E)]];
    rewrite E.
  - split.
    + intros [H|[]]. discriminate H.
    + intros (_ & file & text & results & Hjd & Hu & _). destruct Hin; congruence.
  - split.
    + intros [].
    + intros (_ & file' & text & results & _ & Hu' & Hr' & Ht & _). exfalso.
      assert (file' = file) by congruence. subst file'.
      destruct Hr as [Hr|Hr]; rewrite Hr in Hr'; congruence.
  - destruct (display_effects_cases results) as [[Hp Ed]|[Hp Ed]]; rewrite Ed.
    + split.
      * intros [H|H]; [discriminate H|]. destruct (not_in_widgets _ _ H).
      * intros (_ & file' & text' & results' & _ & Hu' & Hr' & _ & Hs' & Hp' & _). exfalso.
        assert (file' = file) by congruence. subst file'.
        assert (text' = text) by congruence. subst text'.
        assert (results' = results) by congruence. subst results'. congruence.
    + split.
      * intros H. repeat (destruct H as [H|H]; [try discriminate H|]); [|destruct H].
        injection H as <-. split; [reflexivity|].
        exists file, text, results. auto 10.
      * intros (-> & _). do 3 right. left. reflexivity.
Qed.

Lemma on_analyze_raises_at_progress_witness :
  In (Uncaught "StreamlitAPIException"%string)
     (on_analyze (Fixture.runtime Fixture.table_docx) Fixture.parsers Fixture.jd_b
        (Some Fixture.plain_docx)).
Proof.
  apply (proj2 (on_analyze_raises_at_progress (Fixture.runtime Fixture.table_docx)
                  Fixture.parsers Fixture.jd_b (Some Fixture.plain_docx)
                  "StreamlitAPIException"%string)).
  split; [reflexivity|].
  destruct (calculate_scores_returns (Fixture.runtime Fixture.table_docx)
              (lit "Python developer" ++ [NEWLINE] ++ lit "cloud") Fixture.jd_b)
    as [results Hs].
  exists Fixture.plain_docx, (lit "Python developer" ++ [NEWLINE] ++ lit "cloud"), results.
  split; [discriminate|]. split; [reflexivity|]. split; [reflexivity|].
  split; [discriminate|]. split; [exact Hs|].
  assert (Hf : Binary64.final results = Binary64.of_Z (-2)).
  { vm_compute in Hs. injection Hs as <-. reflexivity. }
  split.
  - rewrite Hf. vm_compute. reflexivity.
  - unfold on_analyze. cbn [truthy Fixture.jd_b lit].
    change (read_file Fixture.parsers Fixture.plain_docx)
      with (Return (A := option str)
              (Some (lit "Python developer" ++ [NEWLINE] ++ lit "cloud"))).
    cbn [truthy_opt truthy default lit app]. unfold id.
    change (lit "pastry chef") with Fixture.jd_b in *.
    cbn [lit app] in Hs. rewrite Hs.
    destruct (display_effects_cases results) as [[Hp Ed]|[Hp Ed]].
    + exfalso. rewrite Hf in Hp. vm_compute in Hp. discriminate Hp.
    + rewrite Ed. reflexivity.
Defined.

(** X21. The whole page of results is shown exactly when the job
    description is not empty, a file is given, [read_file] returns a text
    that is not empty and the final score over 100 is a float from 0.0 to
    1.0. Whenever the first three hold, the pipeline is called once, on
    that text and the job description as typed, and the page is that of
    its report: all of it, or the divider and the header followed by the
    exception of [st.progress]. *)
Theorem on_analyze_report (rt : Runtime) (ps : Parsers) (jd_input : str)
    (uploaded_file : option UploadedFile) :
  ((∃ value, In (Widget (Progress value)) (on_analyze rt ps jd_input uploaded_file))
   ↔ jd_input ≠ [] ∧ ∃ file text results, uploaded_file = Some file
       ∧ read_file ps file = Return (Some text) ∧ text ≠ []
       ∧ Binary64.calculate_scores rt text jd_input = Return results
       ∧ progress_accepts (Binary64.div (Binary64.final results) (Binary64.of_Z 100)) = true)
  ∧ (∀ file text, jd_input ≠ [] -> uploaded_file = Some file ->
       read_file ps file = Return (Some text) -> text ≠ [] ->
       ∃ results, Binary64.calculate_scores rt text jd_input = Return results
         ∧ on_analyze rt ps jd_input uploaded_file
           = Invoke_calculate_scores text jd_input :: display_effects results
         ∧ (progress_accepts (Binary64.div (Binary64.final results) (Binary64.of_Z 100)) = true ->
            display_effects results
            = List.map Widget
                ([Divider;
                  Header (Binary64.final results);
                  Progress (Binary64.div (Binary64.final results) (Binary64.of_Z 100));
                  Info (Binary64.keyword results); Caption;
                  Success (Binary64.semantic results); Caption;
                  Warning (len (Binary64.missing results)); Caption;
                  Subheader; Write_hint]
                 ++ match missing_list results with
                    | _ :: _ =>
                        [Markdown (join [SPACE] (List.map span (missing_list results)))]
                    | [] => [Write_no_missing]
                    end))
         ∧ (progress_accepts (Binary64.div (Binary64.final results) (Binary64.of_Z 100)) = false ->
            display_effects results
            = [Widget Divider; Widget (Header (Binary64.final results));
               Uncaught "StreamlitAPIException"%string])).
Proof.
  assert (Hno : ∀ value (l : list effect),
            l = [St_error "Please provide both a Job Description and a Resume file."]
            ∨ l = [] -> ¬ In (Widget (Progress value)) l).
  { intros value l [-> | ->]; [intros [H|[]]; discriminate H | intros []]. }
  destruct (on_analyze_cases rt ps jd_input uploaded_file)
    as [[Hin E]|[(Hjd & file & Hu & Hr & E)|(Hjd & file & text & results & Hu & Hr & Ht & Hs & E)]].
  - split.
    + split.
      * intros (value & H). destruct (Hno value _ (or_introl E) H).
      * intros (Hjd & file & text & results & Hu & _). destruct Hin; congruence.
    + intros file text Hjd Hu _ _. destruct Hin; congruence.
  - split.
    + split.
      * intros (value & H). destruct (Hno value _ (or_intror E) H).
      * intros (_ & file' & text & results & Hu' & Hr' & Ht & _). exfalso.
        assert (file' = file) by congruence. subst file'.
        destruct Hr as [Hr|Hr]; rewrite Hr in Hr'; congruence.
    + intros file' text _ Hu' Hr' Ht. exfalso.
      assert (file' = file) by congruence. subst file'.
      destruct Hr as [Hr|Hr]; rewrite Hr in Hr'; congruence.
  - split.
    + rewrite E. destruct (display_effects_cases results) as [[Hp Ed]|[Hp Ed]]; rewrite Ed.
      * split.
        -- intros _. split; [exact Hjd|]. exists file, text, results. auto.
        -- intros _. eexists. right. apply List.in_map. do 2 right. left. reflexivity.
      * split.
        -- intros (value & H).
           repeat (destruct H as [H|H]; [discriminate H|]). destruct H.
        -- intros (_ & file' & text' & results' & Hu' & Hr' & _ & Hs' & Hp'). exfalso.
           assert (file' = file) by congruence. subst file'.
           assert (text' = text) by congruence. subst text'.
           assert (results' = results) by congruence. subst results'. congruence.
    + intros file' text' _ Hu' Hr' _.
      assert (file' = file) by congruence. subst file'.
      assert (text' = text) by congruence. subst text'.
      exists results. split; [exact Hs|]. split; [exact E|].
      destruct (display_effects_cases results) as [[Hp Ed]|[Hp Ed]]; rewrite Ed;
        split; intros Hp'; congruence.
Qed.

Lemma on_analyze_report_witness :
  ∃ results,
    on_analyze (Fixture.runtime []) Fixture.parsers Fixture.jd_a (Some Fixture.plain_docx)
    = Invoke_calculate_scores (lit "Python developer" ++ [NEWLINE] ++ lit "cloud")
        Fixture.jd_a
      :: display_effects results.
Proof.
  destruct (proj2 (on_analyze_report (Fixture.runtime []) Fixture.parsers Fixture.jd_a
                     (Some Fixture.plain_docx))
              Fixture.plain_docx (lit "Python developer" ++ [NEWLINE] ++ lit "cloud")
              ltac:(discriminate) eq_refl eq_refl ltac:(discriminate))
    as (results & _ & E & _).
  exists results. exact E.
Defined.

(** X22. The handler shows the message that asks for both inputs exactly
    when the job description is empty or no file is given. It shows
    nothing at all, neither a report nor a message, exactly when both are
    given and [read_file] returns [None] or the empty text. *)
Theorem on_analyze_silent (rt : Runtime) (ps : Parsers) (jd_input : str)
    (uploaded_file : option UploadedFile) :
  (on_analyze rt ps jd_input uploaded_file
   = [St_error "Please provide both a Job Description and a Resume file."]
   ↔ jd_input = [] ∨ uploaded_file = None)
  ∧ (on_analyze rt ps jd_input uploaded_file = []
     ↔ jd_input ≠ [] ∧ ∃ file, uploaded_file = Some file
         ∧ (read_file ps file = Return None ∨ read_file ps file = Return (Some []))).
Proof.
  destruct (on_analyze_cases rt ps jd_input uploaded_file)
    as [[Hin E]|[(Hjd & file & Hu & Hr & E)|(Hjd & file & text & results & Hu & Hr & Ht & Hs & E)]];
    rewrite E.
  - split; [split; auto|]. split; [discriminate|].
    intros (Hjd & file & Hu & _). destruct Hin; congruence.
  - split.
    + split; [discriminate|]. intros [H|H]; congruence.
    + split; [|reflexivity]. intros _. split; [exact Hjd|]. exists file. auto.
  - split.
    + split; [discriminate|]. intros [H|H]; congruence.
    + split; [discriminate|]. intros (_ & file' & Hu' & Hr'). exfalso.
      assert (file' = file) by congruence. subst file'.
      destruct Hr' as [Hr'|Hr']; rewrite Hr in Hr'; congruence.
Qed.

Lemma on_analyze_silent_witness :
  on_analyze (Fixture.runtime []) Fixture.parsers Fixture.jd_a (Some Fixture.text_file) = [].
Proof.
  apply (proj2 (on_analyze_silent (Fixture.runtime []) Fixture.parsers Fixture.jd_a
                  (Some Fixture.text_file))).
  split; [discriminate|]. exists Fixture.text_file. split; [reflexivity|].
  left. reflexivity.
Defined.

(** X23. The test on the job description is made on the text as typed: a
    job description of bullets and white space only passes it, the
    pipeline is called, and it works on an empty cleaned job
    description. *)
Theorem blank_jd_runs_pipeline (rt : Runtime) (ps : Parsers) (jd_input : str)
    (file : UploadedFile) (text : str) :
  jd_input ≠ [] ->
  Forall (fun c => is_bullet c = true ∨ is_space c = true) jd_input ->
  read_file ps file = Return (Some text) -> text ≠ [] ->
  In (Invoke_calculate_scores text jd_input) (on_analyze rt ps jd_input (Some file))
  ∧ returns (calculate_locals rt text jd_input) (fun l =>
      clean_jd l = [] ∧ jd_keys l = extract_keywords rt []).
Proof.
  intros Hjd Hblank Hr Ht. split.
  - destruct (on_analyze_cases rt ps jd_input (Some file))
      as [[Hin _]|[(_ & file' & Hu & Hr' & _)|(_ & file' & text' & results & Hu & Hr' & _ & _ & ->)]].
    + destruct Hin; congruence.
    + exfalso. assert (file' = file) by congruence. subst file'.
      destruct Hr' as [Hr'|Hr']; rewrite Hr in Hr'; congruence.
    + assert (file' = file) by congruence. subst file'.
      assert (text' = text) by congruence. subst text'. left. reflexivity.
  - eapply returns_impl; [|apply calculate_locals_spec].
    intros l (_ & Hcj & _ & Hj & _).
    assert (E : clean_text jd_input = []).
    { apply clean_text_empty_iff. eapply List.Forall_impl; [|exact Hblank].
      intros c [Hc|Hc]; [apply word_char_bullet | apply word_char_space]; exact Hc. }
    rewrite Hj, Hcj, E. auto.
Qed.

Lemma blank_jd_runs_pipeline_witness :
  In (Invoke_calculate_scores (lit "Python developer" ++ [NEWLINE] ++ lit "cloud")
        [SPACE; 0x2D%N])
     (on_analyze (Fixture.runtime []) Fixture.parsers [SPACE; 0x2D%N]
        (Some Fixture.plain_docx)).
Proof.
  apply (blank_jd_runs_pipeline (Fixture.runtime []) Fixture.parsers [SPACE; 0x2D%N]
           Fixture.plain_docx (lit "Python developer" ++ [NEWLINE] ++ lit "cloud")).
  - discriminate.
  - apply List.Forall_cons; [right; reflexivity|].
    apply List.Forall_cons; [left; reflexivity|]. apply List.Forall_nil.
  - reflexivity.
  - discriminate.
Defined.

(** ** The display of the missing keywords *)

Lemma str_leb_total (a b : str) : str_leb a b = true ∨ str_leb b a = true.
Proof.
  revert b. induction a as [|x a IH]; intros [|y b]; simpl; auto.
  destruct (N.ltb_spec x y), (N.ltb_spec y x); auto; try lia.
  assert (x = y) by lia. subst y. rewrite N.eqb_refl. apply IH.
Qed.

Lemma str_leb_trans (a b c : str) :
  str_leb a b = true -> str_leb b c = true -> str_leb a c = true.
Proof.
  revert b c. induction a as [|x a IH]; intros [|y b] [|z c]; simpl; auto; try discriminate.
  destruct (N.ltb_spec x y) as [Hxy|Hxy].
  - intros _. destruct (N.ltb_spec y z) as [Hyz|Hyz].
    + intros _. assert (H : (x <? z)%N = true) by (apply N.ltb_lt; lia).
      rewrite H. reflexivity.
    + destruct (N.eqb_spec y z) as [->|Hne]; [|discriminate].
      intros _. assert (H : (x <? z)%N = true) by (apply N.ltb_lt; lia).
      rewrite H. reflexivity.
  - destruct (N.eqb_spec x y) as [->|Hne]; [|discriminate].
    intros Hab. destruct (N.ltb_spec y z) as [Hyz|Hyz]; [reflexivity|].
    destruct (N.eqb_spec y z) as [->|Hne]; [|discriminate].
    apply IH. exact Hab.
Qed.

Lemma str_leb_antisym (a b : str) :
  str_leb a b = true -> str_leb b a = true -> a = b.
Proof.
  revert b. induction a as [|x a IH]; intros [|y b]; simpl; auto; try discriminate.
  destruct (N.ltb_spec x y) as [Hxy|Hxy].
  - intros _. destruct (N.ltb_spec y x) as [Hyx|Hyx]; [lia|].
    destruct (N.eqb_spec y x) as [->|Hne]; [lia | discriminate].
  - destruct (N.eqb_spec x y) as [->|Hne]; [|discriminate].
    rewrite N.ltb_irrefl, N.eqb_refl. intros H1 H2. f_equal. auto.
Qed.

#[local] Instance str_le_total : Total str_le.
Proof. intros a b. apply str_leb_total. Qed.

#[local] Instance str_le_trans : Transitive str_le.
Proof. intros a b c. apply str_leb_trans. Qed.

#[local] Instance str_le_antisym : AntiSymm (=) str_le.
Proof. intros a b. apply str_leb_antisym. Qed.

(** [sorted] gives one list for all the lists of the same elements. *)
Lemma sorted_unique (l1 l2 : list str) : l1 ≡ₚ l2 -> sorted l1 = sorted l2.
Proof.
  intros Hp. unfold sorted.
  apply (StronglySorted_unique str_le); try apply StronglySorted_merge_sort; try apply _.
  rewrite !merge_sort_Permutation. exact Hp.
Qed.

Lemma StronglySorted_strict (l : list str) :
  StronglySorted str_le l -> NoDup l -> StronglySorted str_lt l.
Proof.
  induction 1 as [|x l Hs IH Hx]; intros Hn; constructor.
  - apply IH. apply NoDup_cons in Hn. tauto.
  - apply NoDup_cons in Hn as [Hn _]. rewrite List.Forall_forall in *.
    intros y Hy. split; [apply Hx, Hy|]. intros ->. apply Hn.
    apply list_elem_of_In. exact Hy.
Qed.

Lemma missing_list_perm (results : Binary64.Report) :
  missing_list results ≡ₚ elements (Binary64.missing results).
Proof. unfold missing_list, sorted. apply merge_sort_Permutation. Qed.

Lemma display_accepted (results : Binary64.Report) :
  progress_accepts (Binary64.div (Binary64.final results) (Binary64.of_Z 100)) = true ->
  fst (display results)
  = [Divider;
     Header (Binary64.final results);
     Progress (Binary64.div (Binary64.final results) (Binary64.of_Z 100));
     Info (Binary64.keyword results); Caption;
     Success (Binary64.semantic results); Caption;
     Warning (len (Binary64.missing results)); Caption;
     Subheader; Write_hint]
    ++ match missing_list results with
       | _ :: _ => [Markdown (join [SPACE] (List.map span (missing_list results)))]
       | [] => [Write_no_missing]
       end.
Proof. intros H. unfold display. rewrite H. reflexivity. Qed.

Lemma display_refused (results : Binary64.Report) :
  progress_accepts (Binary64.div (Binary64.final results) (Binary64.of_Z 100)) = false ->
  display results
  = ([Divider; Header (Binary64.final results)], Some "StreamlitAPIException"%string).
Proof. intros H. unfold display. rewrite H. reflexivity. Qed.

(** X24. The list of the missing keywords is in strictly increasing
    order, code point by code point: each missing keyword once, nothing
    else. Its length is the size of the missing set, which is the count
    that the page shows when [st.progress] accepts the final score; when
    it does not, the page shows no count. *)
Theorem missing_list_sorted (results : Binary64.Report) :
  StronglySorted str_lt (missing_list results)
  ∧ (∀ k, In k (missing_list results) ↔ k ∈ Binary64.missing results)
  ∧ Z.of_nat (length (missing_list results)) = len (Binary64.missing results)
  ∧ (progress_accepts (Binary64.div (Binary64.final results) (Binary64.of_Z 100)) = true ->
     ∀ n, In (Warning n) (fst (display results))
          ↔ n = Z.of_nat (length (missing_list results)))
  ∧ (progress_accepts (Binary64.div (Binary64.final results) (Binary64.of_Z 100)) = false ->
     ∀ n, ¬ In (Warning n) (fst (display results))).
Proof.
  pose proof (missing_list_perm results) as Hp.
  assert (Hlen : Z.of_nat (length (missing_list results)) = len (Binary64.missing results)).
  { unfold len, size, set_size. simpl. rewrite (Permutation_length Hp). reflexivity. }
  split; [|split; [|split; [exact Hlen|split]]].
  - apply StronglySorted_strict.
    + unfold missing_list, sorted. apply StronglySorted_merge_sort; apply _.
    + rewrite Hp. apply NoDup_elements.
  - intros k. rewrite <- list_elem_of_In, Hp. apply elem_of_elements.
  - intros Ha n. rewrite (display_accepted results Ha), Hlen. split.
    + intros H. apply List.in_app_or in H as [H|H].
      * repeat (destruct H as [H|H]; [try discriminate H|]); [|destruct H].
        injection H as <-. reflexivity.
      * destruct (missing_list results); destruct H as [H|[]]; discriminate H.
    + intros ->. apply List.in_or_app. left. simpl. tauto.
  - intros Hr n. rewrite (display_refused results Hr). simpl.
    intros H. repeat (destruct H as [H|H]; [discriminate H|]). exact H.
Qed.

Lemma missing_list_sorted_witness :
  In (Warning 1)
     (fst (display {| Binary64.final := Binary64.of_Z 68;
                      Binary64.keyword := Binary64.of_Z 80;
                      Binary64.semantic := Binary64.of_Z 50;
                      Binary64.missing := {[ lit "kubernetes" ]};
                      Binary64.matched := {[ lit "python" ]} |})).
Proof.
  apply (proj1 (proj2 (proj2 (proj2 (missing_list_sorted
            {| Binary64.final := Binary64.of_Z 68;
               Binary64.keyword := Binary64.of_Z 80;
               Binary64.semantic := Binary64.of_Z 50;
               Binary64.missing := {[ lit "kubernetes" ]};
               Binary64.matched := {[ lit "python" ]} |}))))).
  - vm_compute. reflexivity.
  - vm_compute. reflexivity.
Defined.

Lemma missing_list_nil (results : Binary64.Report) :
  missing_list results = [] ↔ Binary64.missing results = ∅.
Proof.
  pose proof (missing_list_perm results) as Hp. split.
  - intros E. rewrite E in Hp. symmetry in Hp. apply Permutation_nil_r in Hp.
    apply leibniz_equiv, elements_empty_inv. rewrite Hp. reflexivity.
  - intros E. rewrite E, elements_empty in Hp. apply Permutation_nil_r. exact Hp.
Qed.

Lemma display_no_missing_iff (results : Binary64.Report) :
  progress_accepts (Binary64.div (Binary64.final results) (Binary64.of_Z 100)) = true ->
  In Write_no_missing (fst (display results)) ↔ Binary64.missing results = ∅.
Proof.
  intros Ha. rewrite <- missing_list_nil, (display_accepted results Ha).
  destruct (missing_list results) as [|k ks]; simpl.
  - split; [reflexivity | tauto].
  - split; [|discriminate].
    intros H. repeat (destruct H as [H|H]; [discriminate H|]). destruct H.
Qed.

Lemma missing_empty_iff (res_keys jd_keys : gset str) :
  jd_keys ∖ res_keys = ∅ ↔ jd_keys ⊆ res_keys.
Proof.
  split.
  - intros E k Hk. destruct (decide (k ∈ res_keys)) as [H|H]; [exact H|].
    exfalso. apply (not_elem_of_empty (C := gset str) k). rewrite <- E.
    apply elem_of_difference. auto.
  - intros H. apply set_eq. intros k. rewrite elem_of_difference, elem_of_empty.
    split; [|tauto]. intros [Hk Hn]. apply Hn, H, Hk.
Qed.

(** X25. When [st.progress] accepts the final score, the page says that no
    keyword is missing exactly when the resume has every job keyword; for
    a job description without keywords it says so while the keyword score
    shown is 0.0. When [st.progress] raises, the page says nothing about
    the missing keywords. *)
Theorem display_no_missing (rt : Runtime) (resume_text jd_text : str) :
  let res_keys := extract_keywords rt (clean_text resume_text) in
  let jd_keys := extract_keywords rt (clean_text jd_text) in
  returns (Binary64.calculate_scores rt resume_text jd_text) (fun report =>
    (progress_accepts (Binary64.div (Binary64.final report) (Binary64.of_Z 100)) = true ->
     (In Write_no_missing (fst (display report)) ↔ jd_keys ⊆ res_keys)
     ∧ (jd_keys = ∅ ->
        In Write_no_missing (fst (display report))
        ∧ In (Info (Binary64.of_Z 0)) (fst (display report))))
    ∧ (progress_accepts (Binary64.div (Binary64.final report) (Binary64.of_Z 100)) = false ->
       ¬ In Write_no_missing (fst (display report))
       ∧ ∀ html, ¬ In (Markdown html) (fst (display report)))).
Proof.
  intros res_keys jd_keys.
  pose proof (binary64_calculate_scores_eq rt resume_text jd_text) as Hrun.
  cbv zeta in Hrun. fold res_keys jd_keys in Hrun. rewrite Hrun. simpl.
  match goal with |- context [display ?r] => set (report := r) end.
  split.
  - intros Ha.
    assert (Hiff : In Write_no_missing (fst (display report)) ↔ jd_keys ⊆ res_keys).
    { rewrite (display_no_missing_iff report Ha). apply missing_empty_iff. }
    split; [exact Hiff|]. intros E. split.
    + apply Hiff. rewrite E. intros k Hk'. apply elem_of_empty in Hk'. destruct Hk'.
    + rewrite (display_accepted report Ha). apply List.in_or_app. left.
      do 3 right. left. unfold report. simpl.
      rewrite E. reflexivity.
  - intros Hr. rewrite (display_refused report Hr). simpl. split.
    + intros H. repeat (destruct H as [H|H]; [discriminate H|]). exact H.
    + intros html H. repeat (destruct H as [H|H]; [discriminate H|]). exact H.
Qed.

Lemma display_no_missing_witness :
  returns (Binary64.calculate_scores (Fixture.runtime []) Fixture.resume_a [])
    (fun report => In Write_no_missing (fst (display report)))
  ∧ returns (Binary64.calculate_scores (Fixture.runtime Fixture.table_b)
               Fixture.resume_b Fixture.jd_b)
      (fun report => ¬ In Write_no_missing (fst (display report))).
Proof.
  split.
  - pose proof (display_no_missing (Fixture.runtime []) Fixture.resume_a []) as H.
    cbv zeta in H.
    destruct (Binary64.calculate_scores (Fixture.runtime []) Fixture.resume_a [])
      as [report|e] eqn:Er; [|exact H].
    simpl in H. simpl. destruct H as [H _].
    assert (Ha : progress_accepts
                   (Binary64.div (Binary64.final report) (Binary64.of_Z 100)) = true).
    { vm_compute in Er. injection Er as <-. vm_compute. reflexivity. }
    destruct (H Ha) as [_ H']. apply H'. reflexivity.
  - pose proof (display_no_missing (Fixture.runtime Fixture.table_b)
                  Fixture.resume_b Fixture.jd_b) as H.
    cbv zeta in H.
    destruct (Binary64.calculate_scores (Fixture.runtime Fixture.table_b)
                Fixture.resume_b Fixture.jd_b) as [report|e] eqn:Er; [|exact H].
    simpl in H. simpl. destruct H as [_ H].
    assert (Hr : progress_accepts
                   (Binary64.div (Binary64.final report) (Binary64.of_Z 100)) = false).
    { vm_compute in Er. injection Er as <-. vm_compute. reflexivity. }
    exact (proj1 (H Hr)).
Defined.

(** * The pipeline on set objects: independence of the iteration order *)

(** A set object, as the list of its elements in iteration order, and the
    set of its elements. *)
Lemma arrange_elem (o : Memory.HashOrder) (l : list str) (k : str) :
  k ∈ Memory.arrange o l ↔ k ∈ l.
Proof. rewrite (Memory.arrange_perm o l). reflexivity. Qed.

Lemma arrange_NoDup (o : Memory.HashOrder) (l : list str) :
  NoDup (Memory.arrange o l) ↔ NoDup l.
Proof. rewrite (Memory.arrange_perm o l). reflexivity. Qed.

Lemma set_add_represents (o : Memory.HashOrder) (l : list str) (s : gset str) (k : str) :
  NoDup l -> (∀ x, x ∈ l ↔ x ∈ s) ->
  NoDup (Memory.set_add o l k) ∧ (∀ x, x ∈ Memory.set_add o l k ↔ x ∈ s ∪ {[ k ]}).
Proof.
  intros Hn He. unfold Memory.set_add.
  destruct (bool_decide (k ∈ l)) eqn:E;
    [apply bool_decide_eq_true in E | apply bool_decide_eq_false in E].
  - split; [exact Hn|]. intros x. rewrite elem_of_union, elem_of_singleton, He.
    split; [auto|]. intros [H| ->]; [exact H | apply He, E].
  - split.
    + apply arrange_NoDup. apply NoDup_app. split; [exact Hn|]. split.
      * intros x Hx Hx'. apply list_elem_of_singleton in Hx'. subst x. exact (E Hx).
      * apply NoDup_singleton.
    + intros x. rewrite arrange_elem, elem_of_app, list_elem_of_singleton,
        elem_of_union, elem_of_singleton, He. reflexivity.
Qed.

Lemma extract_step_represents (o : Memory.HashOrder) (l : list str) (s : gset str)
    (token : Token) :
  NoDup l -> (∀ x, x ∈ l ↔ x ∈ s) ->
  NoDup (Memory.extract_step o l token)
  ∧ (∀ x, x ∈ Memory.extract_step o l token ↔ x ∈ extract_step s token).
Proof.
  intros Hn He. unfold Memory.extract_step, extract_step.
  destruct (bool_decide (pos_ token ∈ [NOUN; PROPN]) && negb (is_stop token)
            && (2 <? Z.of_nat (length (token_text token))))%bool; [|auto].
  destruct (bool_decide (token_text token ∉ ignored)); [|auto].
  apply set_add_represents; assumption.
Qed.

Lemma extract_loop_represents (o : Memory.HashOrder) (doc : list Token) (l : list str)
    (s : gset str) :
  NoDup l -> (∀ x, x ∈ l ↔ x ∈ s) ->
  NoDup (fold_left (Memory.extract_step o) doc l)
  ∧ (∀ x, x ∈ fold_left (Memory.extract_step o) doc l ↔ x ∈ fold_left extract_step doc s).
Proof.
  revert l s. induction doc as [|token doc IH]; intros l s Hn He; simpl; [auto|].
  destruct (extract_step_represents o l s token Hn He) as [Hn' He'].
  apply IH; assumption.
Qed.

Lemma extract_keywords_represents (o : Memory.HashOrder) (rt : Runtime) (text : str) :
  NoDup (Memory.extract_keywords o rt text)
  ∧ (∀ x, x ∈ Memory.extract_keywords o rt text ↔ x ∈ extract_keywords rt text).
Proof.
  unfold Memory.extract_keywords, extract_keywords. apply extract_loop_represents.
  - apply NoDup_nil_2.
  - intros x. rewrite elem_of_nil, elem_of_empty. reflexivity.
Qed.

Lemma intersection_represents (o : Memory.HashOrder) (a b : list str) (A B : gset str) :
  NoDup a -> (∀ x, x ∈ a ↔ x ∈ A) -> (∀ x, x ∈ b ↔ x ∈ B) ->
  NoDup (Memory.intersection o a b)
  ∧ (∀ x, x ∈ Memory.intersection o a b ↔ x ∈ A ∩ B).
Proof.
  intros Hn Ha Hb. unfold Memory.intersection. split.
  - apply arrange_NoDup. apply NoDup_ListNoDup, List.NoDup_filter, NoDup_ListNoDup, Hn.
  - intros x. rewrite arrange_elem, list_elem_of_In, List.filter_In, <- list_elem_of_In,
      bool_decide_eq_true, elem_of_intersection, Ha, Hb. reflexivity.
Qed.

Lemma difference_represents (o : Memory.HashOrder) (a b : list str) (A B : gset str) :
  NoDup a -> (∀ x, x ∈ a ↔ x ∈ A) -> (∀ x, x ∈ b ↔ x ∈ B) ->
  NoDup (Memory.difference o a b)
  ∧ (∀ x, x ∈ Memory.difference o a b ↔ x ∈ A ∖ B).
Proof.
  intros Hn Ha Hb. unfold Memory.difference. split.
  - apply arrange_NoDup. apply NoDup_ListNoDup, List.NoDup_filter, NoDup_ListNoDup, Hn.
  - intros x. rewrite arrange_elem, list_elem_of_In, List.filter_In, <- list_elem_of_In,
      negb_true_iff, bool_decide_eq_false, elem_of_difference, Ha, Hb. reflexivity.
Qed.

Lemma represents_length (l : list str) (s : gset str) :
  NoDup l -> (∀ x, x ∈ l ↔ x ∈ s) -> Z.of_nat (length l) = len s.
Proof.
  intros Hn He. unfold len, size, set_size. simpl. f_equal.
  apply Permutation_length. apply NoDup_Permutation; [exact Hn | apply NoDup_elements |].
  intros x. rewrite He, elem_of_elements. reflexivity.
Qed.

(** The run on set objects returns the report of the run on sets: the
    same floats, and sets with the same elements, each listed once. *)
Lemma memory_calculate_scores_refines (o : Memory.HashOrder) (rt : Runtime)
    (resume_text jd_text : str) :
  returns (Binary64.calculate_scores rt resume_text jd_text) (fun report =>
  returns (Memory.calculate_scores o rt resume_text jd_text) (fun listed =>
    Memory.final listed = Binary64.final report
    ∧ Memory.keyword listed = Binary64.keyword report
    ∧ Memory.semantic listed = Binary64.semantic report
    ∧ (NoDup (Memory.matched listed)
       ∧ ∀ k, k ∈ Memory.matched listed ↔ k ∈ Binary64.matched report)
    ∧ (NoDup (Memory.missing listed)
       ∧ ∀ k, k ∈ Memory.missing listed ↔ k ∈ Binary64.missing report))).
Proof.
  rewrite binary64_calculate_scores_eq. simpl.
  unfold Memory.calculate_scores.
  destruct (extract_keywords_represents o rt (clean_text resume_text)) as [Hnr Her].
  destruct (extract_keywords_represents o rt (clean_text jd_text)) as [Hnj Hej].
  destruct (intersection_represents o _ _ _ _ Hnr Her Hej) as [Hni Hei].
  destruct (difference_represents o _ _ _ _ Hnj Hej Her) as [Hnd Hed].
  rewrite (represents_length _ _ Hni Hei), (represents_length _ _ Hnj Hej).
  unfold Binary64.true_div.
  destruct (len (extract_keywords rt (clean_text jd_text)) =? 0) eqn:E; simpl;
    repeat split; auto; apply Hei || apply Hed.
Qed.

(** C8. Two calls of [calculate_scores] on the same texts, with the same
    tagger and embedding model, both return, and return the same report:
    the same final, keyword and semantic scores and the same matched and
    missing sets. This holds whatever the iteration orders of the sets of
    the two calls are, which the hash seed of the process decides: the two
    counts and the two sets of the report do not depend on them, and the
    page lists the same missing keywords in the same order. *)
Theorem calculate_scores_deterministic (first_order second_order : Memory.HashOrder)
    (rt : Runtime) (resume_text jd_text : str) :
  returns (Memory.calculate_scores first_order rt resume_text jd_text) (fun first =>
  returns (Memory.calculate_scores second_order rt resume_text jd_text) (fun second =>
    Memory.same_report first second
    ∧ NoDup (Memory.matched first) ∧ NoDup (Memory.matched second)
    ∧ NoDup (Memory.missing first) ∧ NoDup (Memory.missing second)
    ∧ length (Memory.missing first) = length (Memory.missing second)
    ∧ sorted (Memory.missing first) = sorted (Memory.missing second))).
Proof.
  pose proof (memory_calculate_scores_refines first_order rt resume_text jd_text) as H1.
  pose proof (memory_calculate_scores_refines second_order rt resume_text jd_text) as H2.
  destruct (Binary64.calculate_scores rt resume_text jd_text) as [report|e]; [|destruct H1].
  simpl in H1, H2.
  destruct (Memory.calculate_scores first_order rt resume_text jd_text) as [first|e];
    [|destruct H1].
  destruct (Memory.calculate_scores second_order rt resume_text jd_text) as [second|e];
    [|destruct H2].
  simpl in *.
  destruct H1 as (Hf1 & Hk1 & Hs1 & [Hn1 Hm1] & [Hd1 Hx1]).
  destruct H2 as (Hf2 & Hk2 & Hs2 & [Hn2 Hm2] & [Hd2 Hx2]).
  assert (Hp : Memory.missing first ≡ₚ Memory.missing second).
  { apply NoDup_Permutation; [exact Hd1 | exact Hd2 |].
    intros k. rewrite Hx1. symmetry. apply Hx2. }
  split; [|split; [exact Hn1 | split; [exact Hn2 | split; [exact Hd1 | split; [exact Hd2|]]]]].
  - unfold Memory.same_report.
    split; [congruence|]. split; [congruence|]. split; [congruence|]. split.
    + intros k. rewrite Hm1. symmetry. apply Hm2.
    + intros k. rewrite Hx1. symmetry. apply Hx2.
  - split; [apply Permutation_length, Hp | apply sorted_unique, Hp].
Qed.

(** Two orders that list the sets of one run differently. *)
Example orders_differ :
  returns (Memory.calculate_scores Sample.as_arranged (Fixture.runtime Fixture.table_a)
             Fixture.resume_a Fixture.jd_a) (fun first =>
  returns (Memory.calculate_scores Sample.reversed (Fixture.runtime Fixture.table_a)
             Fixture.resume_a Fixture.jd_a) (fun second =>
    Memory.matched first ≠ Memory.matched second
    ∧ Memory.final first = Binary64.of_Z 68
    ∧ Memory.final second = Binary64.of_Z 68)).
Proof. vm_compute. split; [discriminate|]. split; reflexivity. Qed.
